(** * Sanitizer demonstration programs: a checked abstract machine

    The repository holds five independent C++ demonstration programs
    (src/examples/asan_example.cpp, msan_example.cpp, semgrep_example.cpp,
    tsan_example.cpp, ubsan_example.cpp).  Every one of them performs
    operations whose behaviour the language leaves undefined, so they are
    embedded over a _checked_ machine: each operation tests its own
    precondition (index in bounds, object alive, storage written, result
    representable, ...), records what it did together with the verdict of
    that test in a log, and then carries on, as a sanitizer in recovering
    mode does.  Where the language gives no value (an indeterminate read,
    the result of an undefined shift) the value is drawn from [noise], a
    component of the state that no program can inspect; a statement that
    quantifies over the starting state therefore covers every behaviour of
    the unchecked executable.

    Modelling conventions, as in Clight after [SimplLocals]:
    - a local scalar that is declared with an initializer and whose address
      is never taken is a let-bound value ([int a = 10;], [int* ptr = ...]);
    - a local declared without initializer ([int x;]) and every array are
      objects on [stack], so that the machine knows which cells were written;
    - objects made by [new] live on [heap] and stay there, marked dead, after
      [delete];
    - namespace-scope ints live in [globals]; they are always initialized. *)

From Stdlib Require Import ZArith String List Lia Bool.
From stdpp Require Import base list relations.
Import ListNotations.
Local Open Scope Z_scope.

(** ** The type [int] of the target: 32 bits, two's complement *)

Module Int.
Definition bits : Z := 32.
(** [INT_MAX] and [INT_MIN] of <climits>. *)
Definition INT_MAX : Z := 2147483647.
Definition INT_MIN : Z := -2147483648.
Definition fits (z : Z) : bool := (INT_MIN <=? z) && (z <=? INT_MAX).
(** What the hardware leaves in a 32-bit register. *)
Definition wrap (z : Z) : Z := (z - INT_MIN) mod 2 ^ bits + INT_MIN.
End Int.

(** ** Events *)

Inductive access := Read | Write.

Inductive pointer :=
| Null
| HeapPtr (b : nat) (off : Z).

Inductive fault :=
| SignedOverflow
| ShiftOutOfRange
| DivisionByZero
| OutOfBounds
| UseAfterFree
| InvalidFree
| NullPointer
| Uninitialized.

(** One constructor per syntactic form of operation that the programs use
    (or hold in a comment). *)
Inductive oper :=
| Incr (v : Z)                                  (* v++ / ++v on an int *)
| Shl (v s : Z)                                 (* v << s *)
| Div (a b : Z)                                 (* a / b *)
| Var (a : access) (x : nat)                    (* a named scalar object *)
| Subscript (a : access) (arr : nat) (i : Z)    (* arr[i] *)
| Deref (a : access) (p : pointer)              (* *p *)
| Glob (a : access) (g : nat)                   (* a namespace-scope int *)
| Decl (b : nat) (n : nat)                   (* a local object of n ints *)
| New (b : nat) (n : nat)                       (* new int / new int[n] *)
| Delete (p : pointer).                         (* delete p *)

Inductive event :=
| Out (s : string)                              (* std::cout << "text" *)
| OutInt (z : Z)                                (* std::cout << an int *)
| Did (o : oper) (verdict : option fault).

(** ** Machine state *)

Record block := Block { cells : list (option Z); live : bool }.

Record state := State {
  globals : list Z;
  stack : list block;
  heap : list block;
  noise : nat -> Z;       (* what indeterminate storage happens to hold *)
  draws : nat;            (* how much of [noise] was consumed *)
  log : list event        (* newest first *)
}.

Definition boot (n : nat -> Z) (gs : list Z) : state :=
  {| globals := gs; stack := []; heap := []; noise := n; draws := 0%nat; log := [] |}.

Definition trace (s : state) : list event := rev (log s).

(** ** The state monad of the machine *)

Definition M (A : Type) : Type := state -> A * state.

#[global] Instance M_ret : MRet M := fun A a s => (a, s).
#[global] Instance M_bind : MBind M :=
  fun A B k m s => let (a, s') := m s in k a s'.

Definition get_state : M state := fun s => (s, s).

Definition emit (e : event) : M unit := fun s =>
  (tt, {| globals := globals s; stack := stack s; heap := heap s;
          noise := noise s; draws := draws s; log := e :: log s |}).

Definition junk : M Z := fun s =>
  (Int.wrap (noise s (draws s)),
   {| globals := globals s; stack := stack s; heap := heap s;
      noise := noise s; draws := S (draws s); log := log s |}).

Definition set_globals (gs : list Z) : M unit := fun s =>
  (tt, {| globals := gs; stack := stack s; heap := heap s;
          noise := noise s; draws := draws s; log := log s |}).

Definition set_stack (bs : list block) : M unit := fun s =>
  (tt, {| globals := globals s; stack := bs; heap := heap s;
          noise := noise s; draws := draws s; log := log s |}).

Definition set_heap (bs : list block) : M unit := fun s =>
  (tt, {| globals := globals s; stack := stack s; heap := bs;
          noise := noise s; draws := draws s; log := log s |}).

(** ** Checked memory *)

Inductive probe :=
| Defined (v : Z)
| Indeterminate
| Bad (f : fault).

Definition in_bounds (blk : block) (i : Z) : bool :=
  (0 <=? i) && (i <? Z.of_nat (length (cells blk))).

Definition peek (bs : list block) (b : nat) (i : Z) : probe :=
  match bs !! b with
  | None => Bad OutOfBounds
  | Some blk =>
      if negb (live blk) then Bad UseAfterFree
      else if in_bounds blk i then
        match cells blk !! Z.to_nat i with
        | Some (Some v) => Defined v
        | _ => Indeterminate
        end
      else Bad OutOfBounds
  end.

Definition poke (bs : list block) (b : nat) (i : Z) (v : Z)
  : option fault * list block :=
  match bs !! b with
  | None => (Some OutOfBounds, bs)
  | Some blk =>
      if negb (live blk) then (Some UseAfterFree, bs)
      else if in_bounds blk i then
        (None, <[b := Block (<[Z.to_nat i := Some v]> (cells blk)) true]> bs)
      else (Some OutOfBounds, bs)
  end.

(** The value a read yields: the stored one, or noise. *)
Definition settle (o : oper) (p : probe) : M Z :=
  match p with
  | Defined v => emit (Did o None);; mret v
  | Indeterminate => emit (Did o (Some Uninitialized));; junk
  | Bad f => emit (Did o (Some f));; junk
  end.

(** [T name[n];] without initializer: n indeterminate cells. *)
Definition declare (n : nat) : M nat :=
  s ← get_state;
  let b := length (stack s) in
  set_stack (stack s ++ [Block (replicate n None) true]);;
  emit (Did (Decl b n) None);;
  mret b.

(** [int name[n] = {v0, v1, ...};]  Aggregate initialization: the elements
    without an initializer of their own are value-initialized, which for
    [int] is zero ([dcl.init.aggr], [dcl.init]/value-initialization). *)
Definition aggregate (n : nat) (init : list Z) : list (option Z) :=
  map Some (take n init ++ replicate (n - length init) 0).

Definition declare_init (n : nat) (init : list Z) : M nat :=
  s ← get_state;
  let b := length (stack s) in
  set_stack (stack s ++ [Block (aggregate n init) true]);;
  emit (Did (Decl b n) None);;
  mret b.

(** [x] as an rvalue, for a scalar object [x]. *)
Definition load_var (x : nat) : M Z :=
  s ← get_state; settle (Var Read x) (peek (stack s) x 0).

(** [arr[i]] as an rvalue. *)
Definition subscript (arr : nat) (i : Z) : M Z :=
  s ← get_state; settle (Subscript Read arr i) (peek (stack s) arr i).

(** [arr[i] = v]. *)
Definition subscript_assign (arr : nat) (i : Z) (v : Z) : M unit :=
  s ← get_state;
  let (verdict, bs) := poke (stack s) arr i v in
  set_stack bs;;
  emit (Did (Subscript Write arr i) verdict).

(** [*p] as an rvalue. *)
Definition deref (p : pointer) : M Z :=
  match p with
  | Null => settle (Deref Read p) (Bad NullPointer)
  | HeapPtr b off => s ← get_state; settle (Deref Read p) (peek (heap s) b off)
  end.

(** [*p = v]. *)
Definition deref_assign (p : pointer) (v : Z) : M unit :=
  match p with
  | Null => emit (Did (Deref Write p) (Some NullPointer))
  | HeapPtr b off =>
      s ← get_state;
      let (verdict, bs) := poke (heap s) b off v in
      set_heap bs;;
      emit (Did (Deref Write p) verdict)
  end.

(** [new int(v)]. *)
Definition new_int (v : Z) : M pointer :=
  s ← get_state;
  let b := length (heap s) in
  set_heap (heap s ++ [Block [Some v] true]);;
  emit (Did (New b 1) None);;
  mret (HeapPtr b 0).

(** [new int[n]]: default-initialized, hence indeterminate. *)
Definition new_array (n : nat) : M pointer :=
  s ← get_state;
  let b := length (heap s) in
  set_heap (heap s ++ [Block (replicate n None) true]);;
  emit (Did (New b n) None);;
  mret (HeapPtr b 0).

(** [delete p]. *)
Definition delete (p : pointer) : M unit :=
  match p with
  | Null => emit (Did (Delete p) None)
  | HeapPtr b off =>
      s ← get_state;
      match heap s !! b with
      | Some blk =>
          if live blk && (off =? 0) then
            set_heap (<[b := Block (cells blk) false]> (heap s));;
            emit (Did (Delete p) None)
          else emit (Did (Delete p) (Some InvalidFree))
      | None => emit (Did (Delete p) (Some InvalidFree))
      end
  end.

(** A namespace-scope int, read and written. *)
Definition load_global (g : nat) : M Z :=
  s ← get_state;
  emit (Did (Glob Read g) None);;
  mret (default 0 (globals s !! g)).

Definition store_global (g : nat) (v : Z) : M unit :=
  s ← get_state;
  set_globals (<[g := v]> (globals s));;
  emit (Did (Glob Write g) None).

Definition pointer_eqb (p q : pointer) : bool :=
  match p, q with
  | Null, Null => true
  | HeapPtr b i, HeapPtr c j => (b =? c)%nat && (i =? j)
  | _, _ => false
  end.

(** ** Checked arithmetic on [int] *)

(** [v + 1] for [v++] and [++v]: undefined when not representable; the
    machine then keeps what two's complement hardware computes. *)
Definition incr (v : Z) : M Z :=
  if Int.fits (v + 1) then emit (Did (Incr v) None);; mret (v + 1)
  else emit (Did (Incr v) (Some SignedOverflow));; mret (Int.wrap (v + 1)).

(** [v << s]: undefined when [s] is negative or not below the width. *)
Definition shl (v s : Z) : M Z :=
  if (0 <=? s) && (s <? Int.bits) then
    emit (Did (Shl v s) None);; mret (Int.wrap (v * 2 ^ s))
  else emit (Did (Shl v s) (Some ShiftOutOfRange));; junk.

(** [a / b]: undefined for a zero divisor and for [INT_MIN / -1]. *)
Definition sdiv (a b : Z) : M Z :=
  if b =? 0 then emit (Did (Div a b) (Some DivisionByZero));; junk
  else if (a =? Int.INT_MIN) && (b =? -1) then
    emit (Did (Div a b) (Some SignedOverflow));; junk
  else emit (Did (Div a b) None);; mret (Z.quot a b).

(** ** Standard output *)

Definition nl : string := String (Ascii.ascii_of_nat 10) EmptyString.

Definition out (s : string) : M unit := emit (Out s).
Definition out_int (z : Z) : M unit := emit (OutInt z).
(** [std::endl]: a newline (the flush is not observable here). *)
Definition endl : M unit := emit (Out nl).

(** ** Reading a log *)

Definition faults (t : list event) : list (oper * fault) :=
  omap (fun e => match e with Did o (Some f) => Some (o, f) | _ => None end) t.

Definition operations (t : list event) : list (oper * option fault) :=
  omap (fun e => match e with Did o v => Some (o, v) | _ => None end) t.

Definition printed_ints (t : list event) : list Z :=
  omap (fun e => match e with OutInt z => Some z | _ => None end) t.

Definition is_division (o : oper) : bool :=
  match o with Div _ _ => true | _ => false end.

Definition is_deref (o : oper) : bool :=
  match o with Deref _ _ => true | _ => false end.

(** How often the global [g] was written. *)
Definition global_writes (g : nat) (t : list event) : nat :=
  length (omap (fun e => match e with
                         | Did (Glob Write h) _ => if (h =? g)%nat then Some e else None
                         | _ => None
                         end) t).

(** ** Talking about a run *)

(** The state with one more event in its log, and with other globals. *)
Definition logged (e : event) (s : state) : state := (emit e s).2.
Definition with_globals (gs : list Z) (s : state) : state := (set_globals gs s).2.

(** [returns m v]: whatever the state it starts in, [m] yields [v]. *)
Definition returns {A} (m : M A) (v : A) : Prop := forall s, (m s).1 = v.

(** ** asan_example.cpp *)

Module asan_example.

Definition main : M Z :=
  out ("AddressSanitizer Example: Buffer Overflow" ++ nl);;
  out ("==========================================" ++ nl ++ nl);;
  (* Stack buffer overflow *)
  arr ← declare_init 5 [1; 2; 3; 4; 5];
  out ("Writing to arr[10] (out of bounds)..." ++ nl);;
  subscript_assign arr 10 99;;
  out "Value at arr[10]: ";; v ← subscript arr 10; out_int v;; endl;;
  (* Use after free *)
  out (nl ++ "Use after free example:" ++ nl);;
  ptr ← new_int 42;
  out "Allocated: ";; v ← deref ptr; out_int v;; endl;;
  delete ptr;;
  out "After delete, trying to access: ";; v ← deref ptr; out_int v;; endl;;
  mret 0.

End asan_example.

(** ** msan_example.cpp *)

Module msan_example.

Definition main : M Z :=
  out ("MemorySanitizer Example: Uninitialized Memory" ++ nl);;
  out ("==============================================" ++ nl ++ nl);;
  (* Uninitialized variable *)
  x ← declare 1;
  out ("Reading uninitialized variable x..." ++ nl);;
  c ← load_var x;
  (if c >? 0 then
     out "x is positive: ";; v ← load_var x; out_int v;; endl
   else
     out "x is not positive: ";; v ← load_var x; out_int v;; endl);;
  (* Uninitialized array *)
  arr ← declare 5;
  out (nl ++ "Reading uninitialized array element..." ++ nl);;
  out "arr[0] = ";; v ← subscript arr 0; out_int v;; endl;;
  (* Partially initialized *)
  arr2 ← declare_init 5 [1; 2];
  out (nl ++ "Reading partially initialized array..." ++ nl);;
  out "arr2[0] = ";; v ← subscript arr2 0; out_int v;; out (" (OK)" ++ nl);;
  out "arr2[2] = ";; v ← subscript arr2 2; out_int v;;
  out (" (MSan will catch this!)" ++ nl);;
  mret 0.

End msan_example.

(** ** ubsan_example.cpp *)

Module ubsan_example.

Definition main : M Z :=
  out ("UndefinedBehaviorSanitizer Example: Undefined Behavior" ++ nl);;
  out ("======================================================" ++ nl ++ nl);;
  (* Signed integer overflow *)
  out ("1. Signed integer overflow:" ++ nl);;
  let x := Int.INT_MAX in
  out "   x = ";; out_int x;; endl;;
  x ← incr x;
  out "   x++ = ";; out_int x;; out (" (undefined behavior)" ++ nl ++ nl);;
  (* Division by zero *)
  out ("2. Division by zero:" ++ nl);;
  let a := 10 in
  let b := 0 in
  (* // int result = a / b;
     // std::cout << "   10 / 0 = " << result << std::endl; *)
  out ("   (Commented out to avoid crash)" ++ nl ++ nl);;
  (* Shift out of bounds *)
  out ("3. Shift out of bounds:" ++ nl);;
  let value := 1 in
  let shift := 100 in
  shifted ← shl value shift;
  out "   1 << 100 = ";; out_int shifted;;
  out (" (undefined behavior)" ++ nl ++ nl);;
  (* Array index out of bounds *)
  out ("4. Array index out of bounds:" ++ nl);;
  arr ← declare_init 5 [1; 2; 3; 4; 5];
  let index := 10 in
  val ← subscript arr index;
  out "   arr[10] = ";; out_int val;; out (" (undefined behavior)" ++ nl ++ nl);;
  (* Null pointer dereference *)
  out ("5. Null pointer dereference:" ++ nl);;
  let ptr := Null in
  (* // *ptr = 42; *)
  out ("   (Commented out to avoid crash)" ++ nl);;
  mret 0.

(** The program with the two commented statements restored, to show what
    the machine would record for them. *)
Definition main_uncommented : M Z :=
  let a := 10 in
  let b := 0 in
  result ← sdiv a b;
  out "   10 / 0 = ";; out_int result;; endl;;
  let ptr := Null in
  deref_assign ptr 42;;
  mret 0.

End ubsan_example.

(** ** semgrep_example.cpp

    The routines that move characters between [std::cin], [char] buffers
    and the C library need the process around the machine; examples 1, 2
    and 5 come with it, in [semgrep_strings] below.  Examples 3 and 4 work
    on string literals only and are left out. *)

Module semgrep_example.

(** [int global_counter = 0;], the program's only namespace-scope int. *)
Definition global_counter : nat := 0%nat.
Definition initial_globals : list Z := [0].

(* Example 6: Weak Cryptography *)
Definition semgrep_weak_crypto : M unit :=
  (* the body holds comments only *)
  mret tt.

(* Example 7: Race Condition *)
Definition semgrep_race_condition : M unit :=
  c ← load_global global_counter;
  c' ← incr c;
  store_global global_counter c'.

(* Example 8: Null Pointer Dereference *)
Definition semgrep_null_pointer : M unit :=
  let ptr := Null in
  if negb (pointer_eqb ptr Null) then
    deref_assign ptr 42
  else mret tt.
  (* // *ptr = 42; *)

(* Example 9: Memory Leak *)
Definition semgrep_memory_leak : M unit :=
  ptr ← new_array 100;
  (* // delete[] ptr; *)
  mret tt.

(* Example 10: Use After Free *)
Definition semgrep_use_after_free : M unit :=
  ptr ← new_int 42;
  delete ptr.
  (* // *ptr = 100; *)

Definition main : M Z :=
  out ("Semgrep Example: Security and Bug Detection" ++ nl);;
  out ("===========================================" ++ nl ++ nl);;
  out ("This file contains code patterns that Semgrep can detect." ++ nl);;
  out ("Run 'cpx semgrep' to scan for issues." ++ nl ++ nl);;
  out ("Common Semgrep detections:" ++ nl);;
  out ("- Command injection vulnerabilities" ++ nl);;
  out ("- Buffer overflows" ++ nl);;
  out ("- Dangerous function usage (strcpy, gets, etc.)" ++ nl);;
  out ("- Hardcoded secrets and credentials" ++ nl);;
  out ("- SQL injection patterns" ++ nl);;
  out ("- Weak cryptography" ++ nl);;
  out ("- Race conditions" ++ nl);;
  out ("- Null pointer dereferences" ++ nl);;
  out ("- Memory leaks" ++ nl);;
  out ("- Use after free" ++ nl);;
  mret 0.

End semgrep_example.

(** ** tsan_example.cpp *)

Module tsan_example.

(** [int counter = 0;], the program's only namespace-scope int. *)
Definition counter : nat := 0%nat.
Definition initial_globals : list Z := [0].

(** [counter++]: a read of the global, the addition, a write of the global;
    nothing makes the three indivisible. *)
Definition counter_increment : M unit :=
  c ← load_global counter;
  c' ← incr c;
  store_global counter c'.

(** The loop of [increment] from loop variable [i] on.  [false]: the fuel
    ran out before the loop condition failed. *)
Fixpoint increment_loop (fuel : nat) (i : Z) : M bool :=
  match fuel with
  | O => mret false
  | S fuel' =>
      if i <? 100000 then
        counter_increment;;
        i' ← incr i;
        increment_loop fuel' i'
      else mret true
  end.

Definition increment (fuel : nat) : M bool := increment_loop fuel 0.

(** *** The two threads

    A worker thread runs [increment]; what it keeps to itself is the loop
    variable and, between the read and the write of one [counter++], the
    value it read.  The loop test and [++i] touch nothing shared, so they
    are folded into the neighbouring shared access.  A worker that is never
    preempted goes through the states of [increment_loop] (lemma
    [increment_is_a_schedule]). *)
Record worker := Worker { w_i : Z; w_read : option Z }.

(** [std::thread t(increment)]: at the loop entry, [i = 0]. *)
Definition spawned : worker := Worker 0 None.

Definition finished (w : worker) : bool :=
  match w_read w with
  | None => negb (w_i w <? 100000)
  | Some _ => false
  end.

(** One scheduling quantum of a worker; [None] when it has returned. *)
Definition worker_step (w : worker) : M (option worker) :=
  match w_read w with
  | None =>
      if w_i w <? 100000 then
        c ← load_global counter;
        mret (Some (Worker (w_i w) (Some c)))
      else mret None
  | Some c =>
      c' ← incr c;
      store_global counter c';;
      i' ← incr (w_i w);
      mret (Some (Worker i' None))
  end.

Inductive tid := T1 | T2.

Record config := Config { t1 : worker; t2 : worker; shared : state }.

Definition thread (t : tid) (c : config) : worker :=
  match t with T1 => t1 c | T2 => t2 c end.

(** The configuration after thread [t] ran a quantum that left it as [w]
    and the shared state as [s]. *)
Definition resume (t : tid) (c : config) (w : worker) (s : state) : config :=
  match t with
  | T1 => Config w (t2 c) s
  | T2 => Config (t1 c) w s
  end.

(** The scheduler picks either thread that can still run and lets it run
    one quantum. *)
Inductive sched (quantum : worker -> M (option worker)) : config -> config -> Prop :=
| sched_pick t c w s :
    quantum (thread t c) (shared c) = (Some w, s) ->
    sched quantum c (resume t c w s).

Definition step : config -> config -> Prop := sched worker_step.

(** [t1.join(); t2.join();] returns once both workers have returned. *)
Definition joined (c : config) : bool := finished (t1 c) && finished (t2 c).

Definition main_before_threads : M unit :=
  out ("ThreadSanitizer Example: Data Race" ++ nl);;
  out ("==================================" ++ nl ++ nl);;
  out ("Starting two threads that increment a shared counter..." ++ nl);;
  out "Initial counter: ";; c ← load_global counter; out_int c;; endl.

Definition main_after_join : M Z :=
  out "Final counter: ";; c ← load_global counter; out_int c;; endl;;
  out ("Expected: 200000, but may be less due to race condition" ++ nl);;
  out ("TSan will report the data race!" ++ nl);;
  mret 0.

(** [main_runs s0 r s]: started in [s0], [main] can return [r] in state [s]. *)
Inductive main_runs (s0 : state) : Z -> state -> Prop :=
| main_run c :
    rtc step (Config spawned spawned (main_before_threads s0).2) c ->
    joined c = true ->
    main_runs s0 (main_after_join (shared c)).1 (main_after_join (shared c)).2.

(** The same two workers when one [counter++] cannot be preempted: a
    quantum is then the read together with the write that follows it. *)
Definition worker_step_atomic (w : worker) : M (option worker) :=
  r ← worker_step w;
  match r with
  | Some w' =>
      match w_read w' with
      | Some _ => worker_step w'
      | None => mret r
      end
  | None => mret None
  end.

Definition step_atomic : config -> config -> Prop := sched worker_step_atomic.

(** [main] with the two calls of [increment] one after the other. *)
Definition main_sequential (fuel : nat) : M (option Z) :=
  main_before_threads;;
  r1 ← increment fuel;
  r2 ← increment fuel;
  if r1 && r2 then r ← main_after_join; mret (Some r) else mret None.

(** *** Invariants of the schedules *)

(** The shared state after the write half of one [counter++] and the
    [++i] that follows it, for a worker that had read [r]. *)
Definition after_write (i r : Z) (s : state) : state :=
  logged (Did (Incr i) None)
    (logged (Did (Glob Write counter) None)
       (with_globals (<[counter := r + 1]> (globals s))
          (logged (Did (Incr r) None) s))).

(** A value read and not yet written back is at most the number of passes
    completed so far, and its reader has a pass left. *)
Definition pending_ok (total : Z) (w : worker) : Prop :=
  match w_read w with
  | Some r => 0 <= r <= total /\ w_i w < 100000
  | None => True
  end.

(** With preemption between read and write: the counter never exceeds the
    number of completed passes, and is positive once one has completed;
    [outs] is what was printed. *)
Definition race_inv (outs : list Z) (c : config) : Prop :=
  let total := w_i (t1 c) + w_i (t2 c) in
  exists v, globals (shared c) !! counter = Some v /\
    0 <= w_i (t1 c) <= 100000 /\ 0 <= w_i (t2 c) <= 100000 /\
    0 <= v <= total /\ (0 < total -> 0 < v) /\
    pending_ok total (t1 c) /\ pending_ok total (t2 c) /\
    printed_ints (trace (shared c)) = outs.

(** Without preemption: the counter is the number of completed passes. *)
Definition atomic_inv (c : config) : Prop :=
  w_read (t1 c) = None /\ w_read (t2 c) = None /\
  0 <= w_i (t1 c) <= 100000 /\ 0 <= w_i (t2 c) <= 100000 /\
  globals (shared c) !! counter = Some (w_i (t1 c) + w_i (t2 c)).



End tsan_example.

(** *** Sharper invariants of the schedules *)

Module tsan_bounds.
Import tsan_example.

(** A value read by a worker that has a pass behind it is at least 1, and
    the counter is at least 2 unless a worker has at most one pass behind it. *)
Definition floor_inv (c : config) : Prop :=
  exists v, globals (shared c) !! counter = Some v /\
    (forall t r, w_read (thread t c) = Some r -> 1 <= w_i (thread t c) -> 1 <= r) /\
    (2 <= v \/ w_i (t1 c) <= 1 \/ w_i (t2 c) <= 1).


End tsan_bounds.

(** ** Characters, the C library and the process around the machine

    A [char] cell holds the code of its byte.  The accesses a library call
    makes are checked like any other; in which order a call touches the
    bytes of its arguments is the library's business, and here each call
    reads what it needs and then writes.  A C string is looked for with
    fuel: a call that reads one returns whether it found the null
    character before the fuel ran out. *)

(** Code points of a literal, and back. *)
Definition bytes (s : string) : list Z :=
  map (fun a => Z.of_nat (Ascii.nat_of_ascii a)) (list_ascii_of_string s).

Definition text (l : list Z) : string :=
  string_of_list_ascii (map (fun c => Ascii.ascii_of_nat (Z.to_nat c)) l).

(** [isspace] in the C locale: space, and \t \n \v \f \r. *)
Definition isspace (c : Z) : bool := (c =? 32) || ((9 <=? c) && (c <=? 13)).

(** The C string that starts at [a[i]]: the characters before the first
    null character.  [None]: out of fuel before one was found. *)
Fixpoint read_cstr (fuel : nat) (a : nat) (i : Z) : M (option (list Z)) :=
  match fuel with
  | O => mret None
  | S fuel' =>
      c ← subscript a i;
      if c =? 0 then mret (Some [])
      else r ← read_cstr fuel' a (i + 1); mret (cons c <$> r)
  end.

(** [a[i] = c0; a[i+1] = c1; ...] *)
Fixpoint write_bytes (a : nat) (i : Z) (l : list Z) : M unit :=
  match l with
  | [] => mret tt
  | c :: l' => subscript_assign a i c;; write_bytes a (i + 1) l'
  end.

(** [strcpy(dst, src)]: the string at [src] with its null character. *)
Definition strcpy (fuel : nat) (dst src : nat) : M bool :=
  r ← read_cstr fuel src 0;
  match r with
  | Some l => write_bytes dst 0 (l ++ [0]);; mret true
  | None => mret false
  end.

(** A format string, read as far as the file uses them: [%s] and
    ordinary characters. *)
Inductive directive := Lit (c : Z) | Str.

Fixpoint directives (fmt : list Z) : list directive :=
  match fmt with
  | [] => []
  | c :: rest =>
      match rest with
      | 115 :: rest' => if c =? 37 then Str :: directives rest'
                        else Lit c :: directives rest
      | _ => Lit c :: directives rest
      end
  end.

(** The characters a format produces from its arguments. *)
Fixpoint expand (fuel : nat) (ds : list directive) (args : list nat)
  : M (option (list Z)) :=
  match ds with
  | [] => mret (Some [])
  | Lit c :: ds' => r ← expand fuel ds' args; mret (cons c <$> r)
  | Str :: ds' =>
      match args with
      | [] => mret None
      | a :: args' =>
          s ← read_cstr fuel a 0;
          r ← expand fuel ds' args';
          mret (match s, r with Some s, Some r => Some (s ++ r) | _, _ => None end)
      end
  end.

(** [sprintf(dst, fmt, args...)]: the expansion and a null character;
    returns the number of characters before it. *)
Definition sprintf (fuel : nat) (dst : nat) (fmt : string) (args : list nat)
  : M (option Z) :=
  r ← expand fuel (directives (bytes fmt)) args;
  match r with
  | Some l => write_bytes dst 0 (l ++ [0]);; mret (Some (Z.of_nat (length l)))
  | None => mret None
  end.

(** [std::cout << a] for a [char] array. *)
Definition out_cstr (fuel : nat) (a : nat) : M bool :=
  r ← read_cstr fuel a 0;
  match r with
  | Some l => out (text l);; mret true
  | None => mret false
  end.

Definition printed_text (t : list event) : list string :=
  omap (fun e => match e with Out s => Some s | _ => None end) t.

(** The process: the machine, what is left on standard input, whether
    [std::cin] is still good, whether the character extractor knows the
    size of its array (it does from C++20 on), and the commands handed to
    [system], oldest first. *)
Record process := Process {
  machine : state;
  stdin : list Z;
  cin_good : bool;
  extractor_bounded : bool;
  shell : list (list Z)
}.

Definition P (A : Type) : Type := process -> A * process.

#[global] Instance P_ret : MRet P := fun A a p => (a, p).
#[global] Instance P_bind : MBind P :=
  fun A B k m p => let (a, p') := m p in k a p'.

Definition lift {A} (m : M A) : P A := fun p =>
  let (a, s) := m (machine p) in
  (a, {| machine := s; stdin := stdin p; cin_good := cin_good p;
         extractor_bounded := extractor_bounded p; shell := shell p |}).

Fixpoint skip_ws (l : list Z) : list Z :=
  match l with
  | c :: l' => if isspace c then skip_ws l' else l
  | [] => []
  end.

(** The word at the front of [l] and what follows it; at most [room]
    characters when there is a bound. *)
Fixpoint span_word (room : option nat) (l : list Z) : list Z * list Z :=
  match l with
  | [] => ([], [])
  | c :: l' =>
      if isspace c then ([], l)
      else match room with
           | Some O => ([], l)
           | _ => let (w, r) := span_word (Nat.pred <$> room) l' in (c :: w, r)
           end
  end.

(** The room the extractor of a process has for [char a[size]]. *)
Definition room_for (size : nat) (p : process) : option nat :=
  if extractor_bounded p then Some (size - 1)%nat else None.

(** The word that [std::cin >> a] takes for [char a[size]]. *)
Definition extracted (size : nat) (p : process) : list Z :=
  (span_word (room_for size p) (skip_ws (stdin p))).1.

(** The extraction of [w] looked at the end of the input: the input ran
    out before the room did. *)
Definition met_eof (room : option nat) (w rest : list Z) : bool :=
  match rest, room with
  | [], Some r => (length w <? r)%nat
  | [], None => true
  | _ :: _, _ => false
  end.

(** [std::cin >> a] for [char a[size]].  A stream that is not good is left
    alone, and so is the array.  Otherwise white space is skipped; at end
    of file the extraction fails and stores nothing; else the word is
    stored (cut to [size - 1] characters by the bounded extractor) with a
    null character after it, and the stream is no longer good once the
    extraction has met the end of the input. *)
Definition cin_extract (a : nat) (size : nat) : P unit := fun p =>
  if cin_good p then
    match skip_ws (stdin p) with
    | [] =>
        (tt, {| machine := machine p; stdin := []; cin_good := false;
                extractor_bounded := extractor_bounded p; shell := shell p |})
    | input =>
        let (w, rest) := span_word (room_for size p) input in
        (tt, {| machine := (write_bytes a 0 (w ++ [0]) (machine p)).2;
                stdin := rest;
                cin_good := negb (met_eof (room_for size p) w rest);
                extractor_bounded := extractor_bounded p; shell := shell p |})
    end
  else (tt, p).

(** The command processor is handed [l]. *)
Definition run_command (l : list Z) : P unit := fun p =>
  (tt, {| machine := machine p; stdin := stdin p; cin_good := cin_good p;
          extractor_bounded := extractor_bounded p; shell := shell p ++ [l] |}).

(** [system(cmd)]: the C string at [cmd] goes to the command processor. *)
Definition system (fuel : nat) (cmd : nat) : P bool :=
  r ← lift (read_cstr fuel cmd 0);
  match r with
  | Some l => run_command l;; mret true
  | None => mret false
  end.

(** A process at its start. *)
Definition spawn (s : state) (input : list Z) (bounded : bool) : process :=
  {| machine := s; stdin := input; cin_good := true;
     extractor_bounded := bounded; shell := [] |}.

Module semgrep_strings.

(* Example 1: Command Injection *)
Definition semgrep_command_injection (fuel : nat) : P bool :=
  user_input ← lift (declare 100);
  cin_extract user_input 100;;
  cmd ← lift (declare 200);
  n ← lift (sprintf fuel cmd "ls %s" [user_input]);
  match n with
  | Some _ => system fuel cmd
  | None => mret false
  end.

(* Example 2: Buffer Overflow *)
Definition semgrep_buffer_overflow (fuel : nat) : P bool :=
  buffer ← lift (declare 10);
  input ← lift (declare 100);
  cin_extract input 100;;
  copied ← lift (strcpy fuel buffer input);
  if (copied : bool) then
    (shown ← lift (out_cstr fuel buffer);
     lift endl;;
     mret shown)
  else mret false.


End semgrep_strings.

(** A process of semgrep_example.cpp with [input] on standard input. *)
Definition fed (input : list Z) (bounded : bool) : process :=
  spawn (boot (fun _ => 0) semgrep_example.initial_globals) input bounded.

(** ** Talking about arrays *)

Definition with_stack (bs : list block) (s : state) : state := (set_stack bs s).2.

(** The live array [a] of [s] has cells [cs]. *)
Definition array_at (s : state) (a : nat) (cs : list (option Z)) : Prop :=
  stack s !! a = Some (Block cs true).

(** Cells after [write_bytes] from index [i]: writes past the end are lost. *)
Fixpoint stored (cs : list (option Z)) (i : nat) (l : list Z) : list (option Z) :=
  match l with
  | [] => cs
  | c :: l' => stored (<[i := Some c]> cs) (S i) l'
  end.

(** The failed checks of [write_bytes] from index [i] into [n] cells. *)
Fixpoint spill (a n i : nat) (l : list Z) : list (oper * fault) :=
  match l with
  | [] => []
  | _ :: l' =>
      (if (i <? n)%nat then [] else [(Subscript Write a (Z.of_nat i), OutOfBounds)])
      ++ spill a n (S i) l'
  end.

(** From [s] to [s']: globals and heap are the same, the failed checks
    grew by [fs] and the text sent to [std::cout] by [outs]. *)
Definition evolves (s s' : state) (fs : list (oper * fault)) (outs : list string) : Prop :=
  globals s' = globals s /\ heap s' = heap s /\
  faults (trace s') = faults (trace s) ++ fs /\
  printed_text (trace s') = printed_text (trace s) ++ outs.

(** The log of [s'] continues the log of [s]. *)
Definition grows (s s' : state) : Prop := exists l, trace s' = trace s ++ l.

Definition with_machine (s : state) (p : process) : process :=
  {| machine := s; stdin := stdin p; cin_good := cin_good p;
     extractor_bounded := extractor_bounded p; shell := shell p |}.

(** [m] only ever adds to the log, and so does [m] on a process. *)
Definition growing {A} (m : M A) : Prop := forall s, grows s (m s).2.

Definition pgrowing {A} (m : P A) : Prop :=
  forall p, grows (machine p) (machine (m p).2).

(** The log that [m] adds to [s] starts with [pre]. *)
Definition starts_with {A} (m : M A) (s : state) (pre : list event) : Prop :=
  exists more, trace (m s).2 = trace s ++ pre ++ more.

Definition pstarts_with {A} (m : P A) (p : process) (pre : list event) : Prop :=
  exists more, trace (machine (m p).2) = trace (machine p) ++ pre ++ more.

(** ** Talking about the heap *)

Definition with_heap (bs : list block) (s : state) : state := (set_heap bs s).2.

(** The ints in live heap objects. *)
Definition live_ints (h : list block) : nat :=
  sum_list_with (fun b => if live b then length (cells b) else 0%nat) h.

(** [k] calls in a row. *)
Fixpoint times (k : nat) (m : M unit) : M unit :=
  match k with
  | O => mret tt
  | S k' => m;; times k' m
  end.

(** * Properties *)

(** ** The machine *)

Lemma printed_ints_snoc t e :
  printed_ints (t ++ [e]) =
  printed_ints t ++ match e with OutInt z => [z] | _ => [] end.
Proof. unfold printed_ints. rewrite omap_app. destruct e; reflexivity. Qed.

Lemma faults_snoc t e :
  faults (t ++ [e]) =
  faults t ++ match e with Did o (Some f) => [(o, f)] | _ => [] end.
Proof. unfold faults. rewrite omap_app. by destruct e as [| |o [f|]]. Qed.

Lemma global_writes_snoc g t e :
  global_writes g (t ++ [e]) =
  (global_writes g t +
   match e with
   | Did (Glob Write h) _ => if (h =? g)%nat then 1 else 0
   | _ => 0
   end)%nat.
Proof.
  unfold global_writes. rewrite omap_app, length_app. f_equal.
  destruct e as [| |[| | | | | |[] h| | |] ?]; try reflexivity.
  simpl. by destruct (h =? g)%nat.
Qed.

Lemma trace_logged e s : trace (logged e s) = trace s ++ [e].
Proof. reflexivity. Qed.

Lemma trace_with_globals gs s : trace (with_globals gs s) = trace s.
Proof. reflexivity. Qed.

Lemma printed_ints_did o v s :
  printed_ints (trace (logged (Did o v) s)) = printed_ints (trace s).
Proof. rewrite trace_logged, printed_ints_snoc. apply app_nil_r. Qed.

Lemma load_global_run g s :
  load_global g s = (default 0 (globals s !! g), logged (Did (Glob Read g) None) s).
Proof. reflexivity. Qed.

Lemma store_global_run g v s :
  store_global g v s =
  (tt, logged (Did (Glob Write g) None) (with_globals (<[g := v]> (globals s)) s)).
Proof. reflexivity. Qed.

Lemma incr_run v s :
  Int.fits (v + 1) = true -> incr v s = (v + 1, logged (Did (Incr v) None) s).
Proof. intros H. unfold incr. rewrite H. reflexivity. Qed.

Lemma fits_iff z : Int.fits z = true <-> Int.INT_MIN <= z <= Int.INT_MAX.
Proof. unfold Int.fits. rewrite andb_true_iff, !Z.leb_le. tauto. Qed.

(** ** Return values *)

Lemma run_bind {A B} (m : M A) (k : A -> M B) s :
  (m ≫= k) s = k (m s).1 (m s).2.
Proof. unfold mbind, M_bind. by destruct (m s). Qed.

Lemma returns_ret {A} (v : A) : returns (mret v) v.
Proof. intros s. reflexivity. Qed.

Lemma returns_bind {A B} (m : M A) (k : A -> M B) (v : B) :
  (forall a, returns (k a) v) -> returns (m ≫= k) v.
Proof.
  intros Hk s. unfold mbind, M_bind.
  destruct (m s) as [a s']. apply Hk.
Qed.

Ltac returns_chain :=
  repeat (apply returns_bind; intros ?); apply returns_ret.

Lemma asan_main_returns_0 : returns asan_example.main 0.
Proof. unfold asan_example.main. returns_chain. Qed.

Lemma msan_main_returns_0 : returns msan_example.main 0.
Proof. unfold msan_example.main. returns_chain. Qed.

Lemma ubsan_main_returns_0 : returns ubsan_example.main 0.
Proof. unfold ubsan_example.main. returns_chain. Qed.

Lemma semgrep_main_returns_0 : returns semgrep_example.main 0.
Proof. unfold semgrep_example.main. returns_chain. Qed.

Lemma tsan_after_join_returns_0 : returns tsan_example.main_after_join 0.
Proof. unfold tsan_example.main_after_join. returns_chain. Qed.

(** ** The sequential programs, run from a fresh process

    A fresh process is [boot n gs]: no object yet, an empty log, the
    program's globals, and any [noise] whatever.  [run_program] evaluates a
    program on it, splitting on every test of an indeterminate value. *)

Ltac run_program :=
  cbv -[Int.wrap Z.gtb operations faults printed_ints trace];
  repeat match goal with |- context [if ?c then _ else _] => destruct c end;
  repeat split; vm_compute; repeat constructor.

(** C4 (overflow-demo).  Whatever indeterminate storage holds, [main]
    declares a 5-element array, writes index 10 of it (out of bounds), reads
    that same index (out of bounds), then allocates a heap int, reads it,
    frees it and reads it through the dangling pointer (use after free), in
    this order; the checks fail three times, at least twice as claimed. *)
Theorem asan_main_overflow_then_use_after_free (n : nat -> Z) :
  let t := trace (asan_example.main (boot n [])).2 in
  operations t =
    [ (Decl 0 5, None);
      (Subscript Write 0 10, Some OutOfBounds);
      (Subscript Read 0 10, Some OutOfBounds);
      (New 0 1, None);
      (Deref Read (HeapPtr 0 0), None);
      (Delete (HeapPtr 0 0), None);
      (Deref Read (HeapPtr 0 0), Some UseAfterFree) ]
  /\ faults t =
    [ (Subscript Write 0 10, OutOfBounds);
      (Subscript Read 0 10, OutOfBounds);
      (Deref Read (HeapPtr 0 0), UseAfterFree) ]
  /\ (2 <= length (faults t))%nat.
Proof. intros t; subst t. run_program. Qed.

(** C5 (uninitialized-read-demo), evaluated.  In every execution [main]
    reads the never-written scalar [x] (object 0) twice, first for the
    branch condition, and element 0 of the never-written array [arr]
    (object 1); these are the only reads of unwritten storage.  Both reads
    of [arr2] (object 2) are of written storage: element 0 holds 1 and
    element 2 holds the 0 that aggregate initialization put there, and
    these two values are what is printed. *)
Theorem msan_main_reads (n : nat -> Z) :
  let t := trace (msan_example.main (boot n [])).2 in
  operations t =
    [ (Decl 0 1, None);
      (Var Read 0, Some Uninitialized);
      (Var Read 0, Some Uninitialized);
      (Decl 1 5, None);
      (Subscript Read 1 0, Some Uninitialized);
      (Decl 2 5, None);
      (Subscript Read 2 0, None);
      (Subscript Read 2 2, None) ]
  /\ printed_ints t = [Int.wrap (n 1%nat); Int.wrap (n 2%nat); 1; 0]
  /\ aggregate 5 [1; 2] = [Some 1; Some 2; Some 0; Some 0; Some 0].
Proof. intros t; subst t. run_program. Qed.

(** C2 (undefined-behavior-demo).  In every execution the operations of
    [main] whose check fails are exactly three, in this order: the increment
    of an int holding [INT_MAX], the shift of 1 by 100 (not below the width
    of int), and the read of index 10 of the 5-element array (object 0). *)
Theorem ubsan_main_three_undefined_operations (n : nat -> Z) :
  let t := trace (ubsan_example.main (boot n [])).2 in
  operations t =
    [ (Incr Int.INT_MAX, Some SignedOverflow);
      (Shl 1 100, Some ShiftOutOfRange);
      (Decl 0 5, None);
      (Subscript Read 0 10, Some OutOfBounds) ]
  /\ faults t =
    [ (Incr Int.INT_MAX, SignedOverflow);
      (Shl 1 100, ShiftOutOfRange);
      (Subscript Read 0 10, OutOfBounds) ]
  /\ Int.bits <= 100.
Proof.
  intros t; subst t.
  split; [|split]; [run_program..|unfold Int.bits; lia].
Qed.

(** C3 (undefined-behavior-demo).  In every execution no operation of
    [main] is a division and none is a dereference of a pointer. *)
Theorem ubsan_main_no_division_no_dereference (n : nat -> Z) :
  Forall (fun ov => is_division ov.1 = false /\ is_deref ov.1 = false)
         (operations (trace (ubsan_example.main (boot n [])).2)).
Proof. run_program. Qed.

(** With the two commented statements restored the machine records a
    division by zero and a null dereference: the checks are there, the
    operations are not. *)
Lemma ubsan_main_uncommented_faults (n : nat -> Z) :
  faults (trace (ubsan_example.main_uncommented (boot n [])).2) =
  [ (Div 10 0, DivisionByZero); (Deref Write Null, NullPointer) ].
Proof. reflexivity. Qed.

(** ** The routines of semgrep_example.cpp *)

(** C6.  [semgrep_weak_crypto] returns in the state it was called in:
    globals (among them [global_counter]), objects and log (hence the
    output) are the same, and it can be dropped from in front of any
    continuation. *)
Theorem semgrep_weak_crypto_is_a_no_op (s : state) :
  semgrep_example.semgrep_weak_crypto s = (tt, s)
  /\ forall (A : Type) (k : M A),
       (semgrep_example.semgrep_weak_crypto;; k) s = k s.
Proof. split; [|intros A k; rewrite run_bind]; reflexivity. Qed.

(** The frame statement of C6 is not vacuous: the neighbouring routine
    does change [global_counter]. *)
Lemma semgrep_race_condition_counts (n : nat -> Z) :
  globals (semgrep_example.semgrep_race_condition
             (boot n semgrep_example.initial_globals)).2 = [1].
Proof. reflexivity. Qed.

(** C10.  In [semgrep_null_pointer] the guard [ptr != nullptr] is false, and
    the routine returns in the state it was called in: it logs no operation,
    so no dereference, and changes nothing. *)
Theorem semgrep_null_pointer_never_dereferences (s : state) :
  negb (pointer_eqb Null Null) = false
  /\ semgrep_example.semgrep_null_pointer s = (tt, s)
  /\ operations (trace (semgrep_example.semgrep_null_pointer s).2) =
     operations (trace s).
Proof. repeat split. Qed.

(** The statement under the guard would be a null dereference. *)
Lemma guarded_statement_faults (s : state) :
  faults (trace (deref_assign Null 42 s).2) =
  faults (trace s) ++ [(Deref Write Null, NullPointer)].
Proof.
  change (trace (deref_assign Null 42 s).2)
    with (trace s ++ [Did (Deref Write Null) (Some NullPointer)]).
  unfold faults. by rewrite omap_app.
Qed.

(** ** tsan_example.cpp *)

Import tsan_example.

(** *** One quantum of a worker *)

Lemma worker_step_read i s v :
  i < 100000 -> globals s !! counter = Some v ->
  worker_step (Worker i None) s =
  (Some (Worker i (Some v)), logged (Did (Glob Read counter) None) s).
Proof.
  intros Hi Hv. unfold worker_step. simpl.
  destruct (Z.ltb_spec i 100000); [|lia].
  unfold mbind, M_bind. rewrite load_global_run, Hv. reflexivity.
Qed.

Lemma worker_step_write i r s :
  Int.fits (r + 1) = true -> Int.fits (i + 1) = true ->
  worker_step (Worker i (Some r)) s = (Some (Worker (i + 1) None), after_write i r s).
Proof.
  intros Hr Hi. unfold worker_step. simpl.
  unfold mbind, M_bind. rewrite (incr_run r), store_global_run by done.
  rewrite (incr_run i) by done. reflexivity.
Qed.

Lemma worker_step_returned i s :
  100000 <= i -> worker_step (Worker i None) s = (None, s).
Proof.
  intros Hi. unfold worker_step. simpl.
  destruct (Z.ltb_spec i 100000); [lia|]. reflexivity.
Qed.

Lemma after_write_globals i r s v :
  globals s !! counter = Some v ->
  globals (after_write i r s) !! counter = Some (r + 1).
Proof.
  intros Hv. simpl. apply list_lookup_insert_eq. eapply lookup_lt_Some, Hv.
Qed.

Lemma after_write_printed i r s :
  printed_ints (trace (after_write i r s)) = printed_ints (trace s).
Proof.
  unfold after_write.
  rewrite !printed_ints_did, trace_with_globals. apply printed_ints_did.
Qed.

Lemma thread_resume t c w s : thread t (resume t c w s) = w.
Proof. destruct t; reflexivity. Qed.

Lemma shared_resume t c w s : shared (resume t c w s) = s.
Proof. destruct t; reflexivity. Qed.

Lemma resume_resume t c w s w' s' :
  resume t (resume t c w s) w' s' = resume t c w' s'.
Proof. destruct t; reflexivity. Qed.

(** What one quantum of a worker can be. *)
Lemma worker_step_cases w s w' s' :
  worker_step w s = (Some w', s') ->
  (w_read w = None /\ w_i w < 100000 /\
   w' = Worker (w_i w) (Some (default 0 (globals s !! counter))) /\
   s' = logged (Did (Glob Read counter) None) s)
  \/ (exists r, w_read w = Some r /\
      (Int.fits (r + 1) = true -> Int.fits (w_i w + 1) = true ->
       w' = Worker (w_i w + 1) None /\ s' = after_write (w_i w) r s)).
Proof.
  destruct w as [i [r|]]; intros H.
  - right. exists r. split; [reflexivity|]. intros Hr Hi. simpl.
    rewrite worker_step_write in H by done. by inversion H.
  - left. simpl. unfold worker_step in H. simpl in H.
    destruct (Z.ltb_spec i 100000); [|discriminate].
    unfold mbind, M_bind in H. rewrite load_global_run in H.
    by inversion H.
Qed.

(** *** The counter stays within the passes completed *)

Lemma race_inv_step outs c c' :
  step c c' -> race_inv outs c -> race_inv outs c'.
Proof.
  intros [t [[i1 r1] [i2 r2] s0] w s Hq] (v & Hv & H1 & H2 & Hb & Hpos & P1 & P2 & Hout).
  unfold race_inv, pending_ok in *. simpl in *.
  apply worker_step_cases in Hq as [(Hr & Hi & -> & ->)|(r & Hr & Hq)].
  - (* the read of counter++ *)
    rewrite Hv. exists v.
    destruct t; simpl in *; subst; simpl;
      rewrite printed_ints_did;
      repeat match goal with x : option Z |- _ => destruct x end;
      simpl in *; intuition lia.
  - (* the write of counter++ *)
    assert (Hfit : Int.fits (r + 1) = true /\
             Int.fits (w_i (thread t (Config (Worker i1 r1) (Worker i2 r2) s0)) + 1) = true).
    { split; apply fits_iff; unfold Int.INT_MIN, Int.INT_MAX;
        destruct t; simpl in *; subst; lia. }
    destruct Hq as [-> ->]; [tauto..|].
    exists (r + 1). rewrite shared_resume.
    rewrite (after_write_globals _ _ _ v), after_write_printed by done.
    split; [reflexivity|].
    destruct t; simpl in *; subst;
      repeat match goal with x : option Z |- _ => destruct x end;
      simpl in *; intuition lia.
Qed.

Lemma race_inv_steps outs c c' :
  rtc step c c' -> race_inv outs c -> race_inv outs c'.
Proof. induction 1; eauto using race_inv_step. Qed.

(** *** A thread that is left alone *)

Lemma resume_same t c w : thread t c = w -> resume t c w (shared c) = c.
Proof. destruct t, c; simpl; intros ->; reflexivity. Qed.

Lemma thread_resume_other t u c w s :
  t <> u -> thread u (resume t c w s) = thread u c.
Proof. destruct t, u; simpl; congruence. Qed.

Section Solo.
Variable quantum : worker -> M (option worker).

(** One pass through the loop body, by whatever number of quanta. *)
Hypothesis iteration : forall t c i v,
  thread t c = Worker i None -> 0 <= i < 100000 ->
  globals (shared c) !! counter = Some v ->
  Int.INT_MIN <= v < Int.INT_MAX ->
  exists s', rtc (sched quantum) c (resume t c (Worker (i + 1) None) s') /\
    globals s' !! counter = Some (v + 1) /\
    printed_ints (trace s') = printed_ints (trace (shared c)).

Lemma solo_passes (k : nat) : forall t c i v,
  Z.of_nat k = 100000 - i -> 0 <= i ->
  thread t c = Worker i None ->
  globals (shared c) !! counter = Some v ->
  Int.INT_MIN <= v -> v + (100000 - i) <= Int.INT_MAX ->
  exists s', rtc (sched quantum) c (resume t c (Worker 100000 None) s') /\
    globals s' !! counter = Some (v + (100000 - i)) /\
    printed_ints (trace s') = printed_ints (trace (shared c)).
Proof using iteration.
  induction k as [|k IH]; intros t c i v Hk Hi Ht Hv Hlo Hhi.
  - assert (i = 100000) as -> by lia.
    exists (shared c). rewrite (resume_same t c) by done.
    rewrite Z.sub_diag, Z.add_0_r. done.
  - destruct (iteration t c i v) as (s1 & Hrun1 & Hv1 & Hout1); [done|lia|done|lia|].
    destruct (IH t (resume t c (Worker (i + 1) None) s1) (i + 1) (v + 1))
      as (s2 & Hrun2 & Hv2 & Hout2);
      rewrite ?thread_resume, ?shared_resume; try done; try lia.
    rewrite resume_resume, shared_resume in *.
    exists s2. split; [by etrans|]. split.
    + rewrite Hv2. f_equal. lia.
    + congruence.
Qed.

(** A thread that is left alone runs its remaining passes. *)
Lemma solo_run t c i v :
  0 <= i <= 100000 ->
  thread t c = Worker i None ->
  globals (shared c) !! counter = Some v ->
  Int.INT_MIN <= v -> v + (100000 - i) <= Int.INT_MAX ->
  exists s', rtc (sched quantum) c (resume t c (Worker 100000 None) s') /\
    globals s' !! counter = Some (v + (100000 - i)) /\
    printed_ints (trace s') = printed_ints (trace (shared c)).
Proof using iteration.
  intros Hi. apply (solo_passes (Z.to_nat (100000 - i))); lia.
Qed.
End Solo.

(** One pass by two quanta of the same thread, nothing in between. *)
Lemma pass_preemptible t c i v :
  thread t c = Worker i None -> 0 <= i < 100000 ->
  globals (shared c) !! counter = Some v ->
  Int.INT_MIN <= v < Int.INT_MAX ->
  rtc step c
    (resume t c (Worker (i + 1) None)
       (after_write i v (logged (Did (Glob Read counter) None) (shared c)))).
Proof.
  intros Ht Hi Hv Hr.
  set (s1 := logged (Did (Glob Read counter) None) (shared c)).
  eapply rtc_l.
  { apply (sched_pick _ t c). rewrite Ht. apply worker_step_read; [lia|done]. }
  eapply rtc_once.
  rewrite <- (resume_resume t c (Worker i (Some v)) s1 (Worker (i + 1) None)).
  apply sched_pick. rewrite thread_resume, shared_resume.
  apply worker_step_write; apply fits_iff; unfold Int.INT_MIN, Int.INT_MAX in *; lia.
Qed.

Lemma iteration_preemptible t c i v :
  thread t c = Worker i None -> 0 <= i < 100000 ->
  globals (shared c) !! counter = Some v ->
  Int.INT_MIN <= v < Int.INT_MAX ->
  exists s', rtc step c (resume t c (Worker (i + 1) None) s') /\
    globals s' !! counter = Some (v + 1) /\
    printed_ints (trace s') = printed_ints (trace (shared c)).
Proof.
  intros Ht Hi Hv Hr. eexists. split; [|split].
  - by apply (pass_preemptible t c i v).
  - apply (after_write_globals _ _ _ v). done.
  - rewrite after_write_printed. apply printed_ints_did.
Qed.

Lemma worker_step_atomic_run i s v :
  0 <= i < 100000 -> globals s !! counter = Some v ->
  Int.INT_MIN <= v < Int.INT_MAX ->
  worker_step_atomic (Worker i None) s =
  (Some (Worker (i + 1) None),
   after_write i v (logged (Did (Glob Read counter) None) s)).
Proof.
  intros Hi Hv Hr. unfold worker_step_atomic, mbind, M_bind.
  rewrite (worker_step_read i s v) by (lia || done). simpl w_read.
  apply worker_step_write; apply fits_iff; unfold Int.INT_MIN, Int.INT_MAX in *; lia.
Qed.

Lemma iteration_atomic t c i v :
  thread t c = Worker i None -> 0 <= i < 100000 ->
  globals (shared c) !! counter = Some v ->
  Int.INT_MIN <= v < Int.INT_MAX ->
  exists s', rtc step_atomic c (resume t c (Worker (i + 1) None) s') /\
    globals s' !! counter = Some (v + 1) /\
    printed_ints (trace s') = printed_ints (trace (shared c)).
Proof.
  intros Ht Hi Hv Hr.
  set (s1 := logged (Did (Glob Read counter) None) (shared c)).
  exists (after_write i v s1). split; [|split].
  - apply rtc_once, sched_pick. rewrite Ht. by apply worker_step_atomic_run.
  - apply (after_write_globals _ _ _ v). done.
  - rewrite after_write_printed. apply printed_ints_did.
Qed.

(** *** Two schedules, and what [main] prints *)

Lemma finished_spec w : finished w = true <-> w_read w = None /\ 100000 <= w_i w.
Proof.
  unfold finished. destruct (w_read w).
  - split; [discriminate|]. intros [? _]. discriminate.
  - rewrite negb_true_iff, Z.ltb_ge. tauto.
Qed.

Lemma joined_spec c :
  joined c = true <->
  (w_read (t1 c) = None /\ 100000 <= w_i (t1 c)) /\
  (w_read (t2 c) = None /\ 100000 <= w_i (t2 c)).
Proof. unfold joined. rewrite andb_true_iff, !finished_spec. tauto. Qed.

Lemma main_before_threads_run n :
  let s := (main_before_threads (boot n initial_globals)).2 in
  globals s = [0] /\ printed_ints (trace s) = [0].
Proof. split; reflexivity. Qed.

Lemma main_after_join_printed s :
  printed_ints (trace (main_after_join s).2) =
  printed_ints (trace s) ++ [default 0 (globals s !! counter)].
Proof.
  unfold trace. cbn [main_after_join]. simpl.
  rewrite !printed_ints_snoc. simpl. by rewrite !app_nil_r.
Qed.

Lemma race_inv_spawned s :
  globals s !! counter = Some 0 ->
  race_inv (printed_ints (trace s)) (Config spawned spawned s).
Proof.
  intros Hs. exists 0. unfold pending_ok. simpl. repeat split; try lia; done.
Qed.

(** Thread 1 runs to completion, then thread 2: no update is lost. *)
Lemma run_without_loss s :
  globals s !! counter = Some 0 ->
  exists c,
    rtc step (Config spawned spawned s) c /\
    joined c = true /\ globals (shared c) !! counter = Some 200000.
Proof.
  intros Hs.
  destruct (solo_run worker_step iteration_preemptible T1 (Config spawned spawned s) 0 0)
    as (s1 & Hrun1 & Hv1 & _);
    try (unfold Int.INT_MIN, Int.INT_MAX; lia); try reflexivity; try assumption.
  simpl in Hrun1, Hv1.
  destruct (solo_run worker_step iteration_preemptible T2
              (Config (Worker 100000 None) spawned s1) 0 100000)
    as (s2 & Hrun2 & Hv2 & _);
    try (unfold Int.INT_MIN, Int.INT_MAX; lia); try reflexivity; try assumption.
  simpl in Hrun2, Hv2.
  eexists. split; [etrans; [exact Hrun1|exact Hrun2]|]. split; [reflexivity|exact Hv2].
Qed.

(** Thread 1 reads 0 and is preempted; thread 2 runs to completion; thread 1
    then writes 1 over the 100000 of thread 2 and runs its other passes. *)
Lemma run_with_lost_updates sb :
  globals sb !! counter = Some 0 ->
  exists c,
    rtc step (Config spawned spawned sb) c /\
    joined c = true /\ globals (shared c) !! counter = Some 100000.
Proof.
  intros Hs.
  set (sA := logged (Did (Glob Read counter) None) sb).
  assert (HA : step (Config spawned spawned sb) (Config (Worker 0 (Some 0)) spawned sA)).
  { apply (sched_pick _ T1 (Config spawned spawned sb)).
    apply worker_step_read; [lia|exact Hs]. }
  destruct (solo_run worker_step iteration_preemptible T2
              (Config (Worker 0 (Some 0)) spawned sA) 0 0)
    as (sB & HB & HvB & _);
    try (unfold Int.INT_MIN, Int.INT_MAX; lia); try reflexivity; try assumption.
  simpl in HB, HvB.
  assert (HC : step (Config (Worker 0 (Some 0)) (Worker 100000 None) sB)
                    (Config (Worker 1 None) (Worker 100000 None) (after_write 0 0 sB))).
  { apply (sched_pick _ T1 (Config (Worker 0 (Some 0)) (Worker 100000 None) sB)).
    by apply worker_step_write. }
  destruct (solo_run worker_step iteration_preemptible T1
              (Config (Worker 1 None) (Worker 100000 None) (after_write 0 0 sB)) 1 1)
    as (sD & HD & HvD & _);
    try (unfold Int.INT_MIN, Int.INT_MAX; lia); try reflexivity; try assumption.
  { exact (after_write_globals 0 0 sB _ HvB). }
  simpl in HD, HvD.
  exists (Config (Worker 100000 None) (Worker 100000 None) sD).
  split; [|split; [reflexivity|exact HvD]].
  eapply rtc_l; [exact HA|]. etrans; [exact HB|].
  eapply rtc_l; [exact HC|exact HD].
Qed.

Lemma main_runs_prints s c :
  globals s !! counter = Some 0 ->
  rtc step (Config spawned spawned s) c ->
  joined c = true ->
  exists v, globals (shared c) !! counter = Some v /\ 0 < v <= 200000 /\
    printed_ints (trace (main_after_join (shared c)).2) =
    printed_ints (trace s) ++ [v].
Proof.
  intros Hs Hrun Hj.
  destruct (race_inv_steps _ _ _ Hrun (race_inv_spawned s Hs))
    as (v & Hv & H1 & H2 & Hb & Hpos & _ & _ & Hout).
  apply joined_spec in Hj as [[_ ?] [_ ?]].
  exists v. split; [done|]. split; [lia|].
  rewrite main_after_join_printed, Hout, Hv. reflexivity.
Qed.

(** *** The sequential routine *)

Lemma after_write_faults i r s :
  faults (trace (after_write i r (logged (Did (Glob Read counter) None) s))) =
  faults (trace s).
Proof.
  unfold after_write.
  rewrite !trace_logged, trace_with_globals, !trace_logged, !faults_snoc.
  simpl. by rewrite !app_nil_r.
Qed.

Lemma after_write_global_writes i r s :
  global_writes counter (trace (after_write i r (logged (Did (Glob Read counter) None) s))) =
  S (global_writes counter (trace s)).
Proof.
  unfold after_write.
  rewrite !trace_logged, trace_with_globals, !trace_logged, !global_writes_snoc.
  simpl. lia.
Qed.

(** One pass through the loop body. *)
Lemma increment_loop_pass fuel i s v :
  i < 100000 -> globals s !! counter = Some v ->
  Int.fits (v + 1) = true -> Int.fits (i + 1) = true ->
  increment_loop (S fuel) i s =
  increment_loop fuel (i + 1)
    (after_write i v (logged (Did (Glob Read counter) None) s)).
Proof.
  intros Hi Hv Hfv Hfi. simpl.
  destruct (Z.ltb_spec i 100000); [|lia].
  unfold counter_increment, mbind, M_bind.
  rewrite load_global_run, Hv. simpl default.
  rewrite (incr_run v), store_global_run by done.
  rewrite (incr_run i) by done. reflexivity.
Qed.

Lemma increment_loop_exit fuel i s :
  100000 <= i -> increment_loop (S fuel) i s = (true, s).
Proof. intros Hi. simpl. destruct (Z.ltb_spec i 100000); [lia|reflexivity]. Qed.

Lemma increment_loop_spec (fuel : nat) : forall i s v,
  0 <= i <= 100000 -> 100000 - i < Z.of_nat fuel ->
  globals s !! counter = Some v ->
  Int.INT_MIN <= v -> v + (100000 - i) <= Int.INT_MAX ->
  exists s',
    increment_loop fuel i s = (true, s') /\
    globals s' !! counter = Some (v + (100000 - i)) /\
    Z.of_nat (global_writes counter (trace s')) =
      Z.of_nat (global_writes counter (trace s)) + (100000 - i) /\
    faults (trace s') = faults (trace s) /\
    printed_ints (trace s') = printed_ints (trace s).
Proof.
  induction fuel as [|fuel IH]; intros i s v Hi Hfuel Hv Hlo Hhi; [lia|].
  destruct (Z.lt_ge_cases i 100000) as [Hlt|Hge].
  - rewrite (increment_loop_pass fuel i s v)
      by (try apply fits_iff; unfold Int.INT_MIN, Int.INT_MAX in *; (lia || done)).
    set (s1 := after_write i v _).
    destruct (IH (i + 1) s1 (v + 1)) as (s' & Hrun & Hv' & Hw & Hf & Hp);
      try lia.
    { by apply (after_write_globals _ _ _ v). }
    exists s'. split; [done|]. subst s1.
    rewrite after_write_global_writes in Hw. rewrite after_write_faults in Hf.
    rewrite after_write_printed, printed_ints_did in Hp.
    repeat split; try done.
    + rewrite Hv'. f_equal. lia.
    + lia.
  - assert (i = 100000) as -> by lia.
    rewrite increment_loop_exit by lia. exists s.
    rewrite Z.sub_diag, !Z.add_0_r. done.
Qed.

(** The worker machine runs [increment]: a call of [increment] by one
    thread while the other stands still is a schedule, with the same final
    state. *)
Lemma increment_is_a_schedule (fuel : nat) : forall t c i v,
  thread t c = Worker i None ->
  0 <= i <= 100000 -> 100000 - i < Z.of_nat fuel ->
  globals (shared c) !! counter = Some v ->
  Int.INT_MIN <= v -> v + (100000 - i) <= Int.INT_MAX ->
  exists s',
    increment_loop fuel i (shared c) = (true, s') /\
    rtc step c (resume t c (Worker 100000 None) s').
Proof.
  induction fuel as [|fuel IH]; intros t c i v Ht Hi Hfuel Hv Hlo Hhi; [lia|].
  destruct (Z.lt_ge_cases i 100000) as [Hlt|Hge].
  - rewrite (increment_loop_pass fuel i (shared c) v)
      by (try apply fits_iff; unfold Int.INT_MIN, Int.INT_MAX in *; (lia || done)).
    assert (Hpass := pass_preemptible t c i v Ht ltac:(lia) Hv
                       ltac:(unfold Int.INT_MAX in *; lia)).
    set (s1 := after_write i v _) in *.
    destruct (IH t (resume t c (Worker (i + 1) None) s1) (i + 1) (v + 1))
      as (s' & Hrun & Hsteps);
      rewrite ?thread_resume, ?shared_resume; try done; try lia.
    { by apply (after_write_globals _ _ _ v). }
    rewrite shared_resume in Hrun. rewrite resume_resume in Hsteps.
    exists s'. split; [done|]. by etrans.
  - assert (i = 100000) as -> by lia.
    rewrite increment_loop_exit by lia. exists (shared c).
    by rewrite (resume_same t c).
Qed.

(** *** Atomic increments *)

Lemma worker_step_atomic_returned i s :
  100000 <= i -> worker_step_atomic (Worker i None) s = (None, s).
Proof.
  intros Hi. unfold worker_step_atomic, mbind, M_bind.
  by rewrite worker_step_returned.
Qed.

Lemma atomic_inv_step c c' : step_atomic c c' -> atomic_inv c -> atomic_inv c'.
Proof.
  intros [t [[i1 r1] [i2 r2] s0] w s Hq] (R1 & R2 & H1 & H2 & Hv).
  unfold atomic_inv in *. simpl in *. subst r1 r2.
  destruct t; simpl in Hq.
  - destruct (Z.lt_ge_cases i1 100000).
    + rewrite (worker_step_atomic_run i1 s0 (i1 + i2)) in Hq
        by (unfold Int.INT_MIN, Int.INT_MAX; (lia || done)).
      inversion Hq; subst; clear Hq. cbn [w_i w_read t1 t2 shared resume].
      rewrite (after_write_globals _ _ _ (i1 + i2)) by done.
      repeat split; try lia. f_equal. lia.
    + rewrite worker_step_atomic_returned in Hq by done. discriminate.
  - destruct (Z.lt_ge_cases i2 100000).
    + rewrite (worker_step_atomic_run i2 s0 (i1 + i2)) in Hq
        by (unfold Int.INT_MIN, Int.INT_MAX; (lia || done)).
      inversion Hq; subst; clear Hq. cbn [w_i w_read t1 t2 shared resume].
      rewrite (after_write_globals _ _ _ (i1 + i2)) by done.
      repeat split; try lia. f_equal. lia.
    + rewrite worker_step_atomic_returned in Hq by done. discriminate.
Qed.

Lemma atomic_inv_steps c c' :
  rtc step_atomic c c' -> atomic_inv c -> atomic_inv c'.
Proof. induction 1; eauto using atomic_inv_step. Qed.

Lemma atomic_run_exists s :
  globals s !! counter = Some 0 ->
  exists c, rtc step_atomic (Config spawned spawned s) c /\ joined c = true.
Proof.
  intros Hs.
  destruct (solo_run worker_step_atomic iteration_atomic T1 (Config spawned spawned s) 0 0)
    as (s1 & Hrun1 & Hv1 & _);
    try (unfold Int.INT_MIN, Int.INT_MAX; lia); try reflexivity; try assumption.
  simpl in Hrun1, Hv1.
  destruct (solo_run worker_step_atomic iteration_atomic T2
              (Config (Worker 100000 None) spawned s1) 0 100000)
    as (s2 & Hrun2 & _);
    try (unfold Int.INT_MIN, Int.INT_MAX; lia); try reflexivity; try assumption.
  simpl in Hrun2.
  exists (Config (Worker 100000 None) (Worker 100000 None) s2).
  split; [by etrans|reflexivity].
Qed.

Lemma main_after_join_faults s :
  faults (trace (main_after_join s).2) = faults (trace s).
Proof.
  unfold trace. cbn [main_after_join]. simpl.
  rewrite !faults_snoc. simpl. by rewrite !app_nil_r.
Qed.

Lemma main_sequential_run n fuel :
  100000 < Z.of_nat fuel ->
  exists s, main_sequential fuel (boot n initial_globals) = (Some 0, s) /\
    printed_ints (trace s) = [0; 200000] /\ faults (trace s) = [].
Proof.
  intros Hfuel. unfold main_sequential.
  rewrite run_bind.
  set (sb := (main_before_threads (boot n initial_globals)).2). cbv beta.
  destruct (increment_loop_spec fuel 0 sb 0) as (s1 & Hrun1 & Hv1 & _ & Hf1 & Hp1);
    try (unfold Int.INT_MIN, Int.INT_MAX; lia); try reflexivity.
  destruct (increment_loop_spec fuel 0 s1 100000) as (s2 & Hrun2 & Hv2 & _ & Hf2 & Hp2);
    try (unfold Int.INT_MIN, Int.INT_MAX; lia); try assumption.
  unfold increment. rewrite run_bind, Hrun1. cbv beta. cbn [fst snd].
  rewrite run_bind, Hrun2. cbv beta. cbn [fst snd andb].
  rewrite run_bind. eexists. split; [|split].
  - rewrite (tsan_after_join_returns_0 s2). reflexivity.
  - rewrite main_after_join_printed, Hp2, Hp1, Hv2. reflexivity.
  - rewrite main_after_join_faults, Hf2, Hf1. reflexivity.
Qed.

(** *** Every schedule comes to the join *)








(** *** What data-race-demo computes *)

(** C7, amended.  Called with enough fuel in a state where [counter] holds
    an int [c] that leaves room for 100000 more, [increment] returns, has
    written the counter exactly 100000 times, leaves [c + 100000] in it, and
    no check has failed. *)
Theorem increment_adds_100000 (fuel : nat) (s : state) (c : Z) :
  100000 < Z.of_nat fuel ->
  globals s !! counter = Some c ->
  Int.INT_MIN <= c <= Int.INT_MAX - 100000 ->
  exists s',
    increment fuel s = (true, s') /\
    globals s' !! counter = Some (c + 100000) /\
    Z.of_nat (global_writes counter (trace s')) =
      Z.of_nat (global_writes counter (trace s)) + 100000 /\
    faults (trace s') = faults (trace s).
Proof.
  intros Hfuel Hc Hrange.
  destruct (increment_loop_spec fuel 0 s c) as (s' & Hrun & Hv & Hw & Hf & _);
    try lia; try done.
  exists s'. rewrite Z.sub_0_r in *. done.
Qed.

(** C7 at [c = 0], the value the program starts the counter with. *)
Lemma increment_adds_100000_from_0 :
  100000 < Z.of_nat (Z.to_nat 100001) /\
  globals (boot (fun _ => 0) initial_globals) !! counter = Some 0 /\
  exists s',
    increment (Z.to_nat 100001) (boot (fun _ => 0) initial_globals) = (true, s') /\
    globals s' !! counter = Some (0 + 100000) /\
    Z.of_nat (global_writes counter (trace s')) =
      Z.of_nat (global_writes counter (trace (boot (fun _ => 0) initial_globals))) + 100000 /\
    faults (trace s') = faults (trace (boot (fun _ => 0) initial_globals)).
Proof.
  split; [lia|]. split; [reflexivity|].
  apply (increment_adds_100000 (Z.to_nat 100001) (boot (fun _ => 0) initial_globals) 0).
  - lia.
  - reflexivity.
  - unfold Int.INT_MIN, Int.INT_MAX. lia.
Defined.

(** C7 as stated fails for a counter near [INT_MAX]: started with
    [counter = INT_MAX], the first [counter++] overflows, and [increment]
    returns with [INT_MIN + 99999] in the counter, not [INT_MAX + 100000]. *)
Lemma increment_from_INT_MAX_overflows :
  let s := boot (fun _ => 0) [Int.INT_MAX] in
  let r := increment (Z.to_nat 100001) s in
  faults (trace (counter_increment s).2) = [(Incr Int.INT_MAX, SignedOverflow)]
  /\ r.1 = true
  /\ globals r.2 !! counter = Some (Int.INT_MIN + 99999)
  /\ globals r.2 !! counter <> Some (Int.INT_MAX + 100000).
Proof.
  cbv zeta.
  assert (H : (increment (Z.to_nat 100001) (boot (fun _ => 0) [Int.INT_MAX])).1 = true
              /\ globals (increment (Z.to_nat 100001) (boot (fun _ => 0) [Int.INT_MAX])).2
                 = [Int.INT_MIN + 99999])
    by (split; vm_compute; reflexivity).
  destruct H as [H1 H2]. rewrite H1, H2.
  split; [reflexivity|]. split; [reflexivity|]. split; [reflexivity|].
  unfold Int.INT_MIN, Int.INT_MAX. simpl. intros [=].
Qed.

(** C9.  From the initial counter 0: with the two calls of [increment] one
    after the other, [main] prints 200000 as the final counter and returns
    0 with no check failed; and with indivisible increments, every
    schedule of the two workers that reaches the join leaves 200000 in the
    counter (and some schedule reaches it). *)
Theorem data_race_free_total_is_200000 (n : nat -> Z) :
  let s0 := boot n initial_globals in
  (forall fuel, 100000 < Z.of_nat fuel ->
     exists s, main_sequential fuel s0 = (Some 0, s) /\
       printed_ints (trace s) = [0; 200000] /\ faults (trace s) = [])
  /\ (forall c, rtc step_atomic (Config spawned spawned s0) c -> joined c = true ->
        globals (shared c) !! counter = Some 200000)
  /\ (exists c, rtc step_atomic (Config spawned spawned s0) c /\ joined c = true).
Proof.
  intros s0. split; [|split].
  - intros fuel. apply main_sequential_run.
  - intros c Hrun Hj.
    assert (Hinv : atomic_inv c).
    { apply (atomic_inv_steps _ _ Hrun). repeat split; simpl; lia. }
    destruct Hinv as (_ & _ & H1 & H2 & ->).
    apply joined_spec in Hj as [[_ ?] [_ ?]]. f_equal. lia.
  - by apply atomic_run_exists.
Qed.

(** C1.  Whatever the schedule of the two workers, the final counter that
    [main] prints after the joins is positive and at most 200000; some
    schedule makes it 200000 and some other makes it 100000.  (The first
    number printed is the initial counter.) *)
Theorem data_race_final_counter (n : nat -> Z) :
  let s0 := boot n initial_globals in
  (forall r s, main_runs s0 r s ->
     exists v, printed_ints (trace s) = [0; v] /\ 0 < v <= 200000)
  /\ (exists r s, main_runs s0 r s /\ printed_ints (trace s) = [0; 200000])
  /\ (exists r s, main_runs s0 r s /\ printed_ints (trace s) = [0; 100000]).
Proof.
  intros s0.
  destruct (main_before_threads_run n) as [Hg Hp]. fold s0 in Hg, Hp.
  assert (Hs : globals (main_before_threads s0).2 !! counter = Some 0)
    by (rewrite Hg; reflexivity).
  split; [|split].
  - intros r s [c Hrun Hj].
    destruct (main_runs_prints _ c Hs Hrun Hj) as (v & _ & Hv & Hout).
    rewrite Hp in Hout. exists v. split; [exact Hout|lia].
  - destruct (run_without_loss _ Hs) as (c & Hrun & Hj & Hv).
    do 2 eexists. split; [by apply (main_run s0 c)|].
    destruct (main_runs_prints _ c Hs Hrun Hj) as (v & Hv' & _ & ->).
    rewrite Hp. simpl. congruence.
  - destruct (run_with_lost_updates _ Hs) as (c & Hrun & Hj & Hv).
    do 2 eexists. split; [by apply (main_run s0 c)|].
    destruct (main_runs_prints _ c Hs Hrun Hj) as (v & Hv' & _ & ->).
    rewrite Hp. simpl. congruence.
Qed.

(** ** All five programs *)

(** C8.  Each [main] returns 0 whatever the state it is started in; for
    the threaded program, every run that comes back from the joins returns
    0, and such runs exist. *)
Theorem every_main_returns_0 :
  returns asan_example.main 0
  /\ returns msan_example.main 0
  /\ returns semgrep_example.main 0
  /\ returns ubsan_example.main 0
  /\ (forall s0 r s, tsan_example.main_runs s0 r s -> r = 0)
  /\ (forall n, exists s,
        tsan_example.main_runs (boot n tsan_example.initial_globals) 0 s).
Proof.
  split; [apply asan_main_returns_0|].
  split; [apply msan_main_returns_0|].
  split; [apply semgrep_main_returns_0|].
  split; [apply ubsan_main_returns_0|].
  split.
  - intros s0 r s [c _ _]. apply tsan_after_join_returns_0.
  - intros n.
    destruct (run_without_loss (main_before_threads (boot n initial_globals)).2)
      as (c & Hrun & Hj & _); [reflexivity|].
    exists (main_after_join (shared c)).2.
    rewrite <- (tsan_after_join_returns_0 (shared c)) at 1.
    by apply main_run.
Qed.

(** ** data-race-demo: how much can be lost *)

Import tsan_bounds.

Lemma floor_inv_step outs c c' :
  step c c' -> race_inv outs c -> floor_inv c -> floor_inv c'.
Proof.
  intros [t [[i1 r1] [i2 r2] s0] w s Hq]
    (v & Hv & H1 & H2 & Hb & Hpos & P1 & P2 & Hout) (v' & Hv' & Hr & Hfloor).
  rewrite Hv in Hv'. injection Hv' as <-.
  unfold floor_inv, pending_ok in *. simpl in *.
  apply worker_step_cases in Hq as [(Hrd & Hi & -> & ->)|(r & Hrd & Hq)].
  - rewrite Hv. exists v. split; [destruct t; exact Hv|]. split.
    + intros u r Hu Hiu. pose proof (Hr u r) as Hold.
      destruct t, u; simpl in *; subst; simpl in *;
        try (injection Hu as <-); try (apply Hold; done); lia.
    + destruct t; simpl in *; lia.
  - assert (Hfit : Int.fits (r + 1) = true /\
             Int.fits (w_i (thread t (Config (Worker i1 r1) (Worker i2 r2) s0)) + 1) = true).
    { split; apply fits_iff; unfold Int.INT_MIN, Int.INT_MAX;
        destruct t; simpl in *; subst; lia. }
    destruct Hq as [-> ->]; [tauto..|].
    exists (r + 1). rewrite shared_resume.
    rewrite (after_write_globals _ _ _ v) by done.
    split; [reflexivity|]. split.
    + intros u r' Hu Hiu. pose proof (Hr u r') as Hold.
      destruct t, u; simpl in *; subst; simpl in *;
        try discriminate; apply Hold; done.
    + pose proof (Hr t r) as Hold.
      destruct t; simpl in *; subst; simpl in *;
        (destruct (Z.le_gt_cases 1 i1), (Z.le_gt_cases 1 i2);
         try (specialize (Hold eq_refl)); lia).
Qed.

Lemma floor_inv_steps outs c c' :
  rtc step c c' -> race_inv outs c -> floor_inv c -> floor_inv c'.
Proof.
  induction 1 as [|c c1 c' Hstep _ IH]; [done|]. intros Hinv Hfl.
  apply IH; eauto using race_inv_step, floor_inv_step.
Qed.

Lemma floor_inv_spawned s :
  globals s !! counter = Some 0 -> floor_inv (Config spawned spawned s).
Proof.
  intros Hs. exists 0. split; [done|]. split.
  - intros [] r [=].
  - right. left. simpl. lia.
Qed.






(** A thread that is left alone for the passes [i] to [j]. *)
Lemma solo_passes_to (k : nat) : forall t c i j v,
  Z.of_nat k = j - i -> 0 <= i -> j <= 100000 ->
  thread t c = Worker i None ->
  globals (shared c) !! counter = Some v ->
  Int.INT_MIN <= v -> v + (j - i) <= Int.INT_MAX ->
  exists s', rtc step c (resume t c (Worker j None) s') /\
    globals s' !! counter = Some (v + (j - i)) /\
    printed_ints (trace s') = printed_ints (trace (shared c)).
Proof.
  induction k as [|k IH]; intros t c i j v Hk Hi Hj Ht Hv Hlo Hhi.
  - assert (j = i) as -> by lia.
    exists (shared c). rewrite (resume_same t c) by done.
    rewrite Z.sub_diag, Z.add_0_r. done.
  - destruct (iteration_preemptible t c i v) as (s1 & Hrun1 & Hv1 & Hout1);
      [done|lia|done|lia|].
    destruct (IH t (resume t c (Worker (i + 1) None) s1) (i + 1) j (v + 1))
      as (s2 & Hrun2 & Hv2 & Hout2);
      rewrite ?thread_resume, ?shared_resume; try done; try lia.
    rewrite resume_resume, shared_resume in *.
    exists s2. split; [by etrans|]. split.
    + rewrite Hv2. f_equal. lia.
    + congruence.
Qed.

(** Thread 1 reads 0; thread 2 runs all passes but one; thread 1 writes 1;
    thread 2 reads 1; thread 1 runs its other passes; thread 2 writes 2. *)
Lemma run_losing_all_but_two sb :
  globals sb !! counter = Some 0 ->
  exists c,
    rtc step (Config spawned spawned sb) c /\
    joined c = true /\ globals (shared c) !! counter = Some 2.
Proof.
  intros Hs.
  set (sA := logged (Did (Glob Read counter) None) sb).
  assert (HA : step (Config spawned spawned sb) (Config (Worker 0 (Some 0)) spawned sA)).
  { apply (sched_pick _ T1 (Config spawned spawned sb)).
    apply worker_step_read; [lia|exact Hs]. }
  destruct (solo_passes_to (Z.to_nat 99999) T2
              (Config (Worker 0 (Some 0)) spawned sA) 0 99999 0)
    as (sB & HB & HvB & _);
    try (unfold Int.INT_MIN, Int.INT_MAX; lia); try reflexivity; try assumption.
  simpl in HB, HvB.
  assert (HC : step (Config (Worker 0 (Some 0)) (Worker 99999 None) sB)
                    (Config (Worker 1 None) (Worker 99999 None) (after_write 0 0 sB))).
  { apply (sched_pick _ T1 (Config (Worker 0 (Some 0)) (Worker 99999 None) sB)).
    by apply worker_step_write. }
  set (sC := after_write 0 0 sB) in *.
  assert (HvC : globals sC !! counter = Some 1)
    by exact (after_write_globals 0 0 sB _ HvB).
  set (sD := logged (Did (Glob Read counter) None) sC).
  assert (HD : step (Config (Worker 1 None) (Worker 99999 None) sC)
                    (Config (Worker 1 None) (Worker 99999 (Some 1)) sD)).
  { apply (sched_pick _ T2 (Config (Worker 1 None) (Worker 99999 None) sC)).
    apply worker_step_read; [lia|exact HvC]. }
  destruct (solo_passes_to (Z.to_nat 99999) T1
              (Config (Worker 1 None) (Worker 99999 (Some 1)) sD) 1 100000 1)
    as (sE & HE & HvE & _);
    try (unfold Int.INT_MIN, Int.INT_MAX; lia); try reflexivity; try assumption.
  simpl in HE, HvE.
  assert (HF : step (Config (Worker 100000 None) (Worker 99999 (Some 1)) sE)
                    (Config (Worker 100000 None) (Worker 100000 None) (after_write 99999 1 sE))).
  { apply (sched_pick _ T2 (Config (Worker 100000 None) (Worker 99999 (Some 1)) sE)).
    by apply worker_step_write. }
  exists (Config (Worker 100000 None) (Worker 100000 None) (after_write 99999 1 sE)).
  split; [|split; [reflexivity|exact (after_write_globals 99999 1 sE _ HvE)]].
  eapply rtc_l; [exact HA|]. etrans; [exact HB|].
  eapply rtc_l; [exact HC|]. eapply rtc_l; [exact HD|].
  etrans; [exact HE|]. by apply rtc_once.
Qed.


(** X2.  The final counter that [main] prints is at least 2 whatever the
    schedule, and some schedule makes it print exactly 2: all but two of
    the 200000 increments can be lost, and no more. *)
Theorem data_race_final_counter_floor (n : nat -> Z) :
  let s0 := boot n initial_globals in
  (forall r s, main_runs s0 r s ->
     exists v, printed_ints (trace s) = [0; v] /\ 2 <= v)
  /\ (exists r s, main_runs s0 r s /\ printed_ints (trace s) = [0; 2]).
Proof.
  intros s0.
  destruct (main_before_threads_run n) as [Hg Hp]. fold s0 in Hg, Hp.
  assert (Hs : globals (main_before_threads s0).2 !! counter = Some 0)
    by (rewrite Hg; reflexivity).
  split.
  - intros r s [c Hrun Hj].
    destruct (main_runs_prints _ c Hs Hrun Hj) as (v & Hv & _ & Hout).
    destruct (floor_inv_steps _ _ _ Hrun (race_inv_spawned _ Hs) (floor_inv_spawned _ Hs))
      as (v' & Hv' & _ & Hfloor).
    apply joined_spec in Hj as [[_ ?] [_ ?]].
    rewrite Hp in Hout. exists v. split; [exact Hout|].
    assert (v' = v) by congruence. lia.
  - destruct (run_losing_all_but_two _ Hs) as (c & Hrun & Hj & Hv).
    do 2 eexists. split; [by apply (main_run s0 c)|].
    destruct (main_runs_prints _ c Hs Hrun Hj) as (v & Hv' & _ & ->).
    rewrite Hp. simpl. congruence.
Qed.


(** ** The string routines of semgrep_example.cpp *)

(** *** Arrays of characters *)

Lemma evolves_refl s : evolves s s [] [].
Proof. unfold evolves. by rewrite !app_nil_r. Qed.

Lemma evolves_trans s1 s2 s3 f1 f2 o1 o2 :
  evolves s1 s2 f1 o1 -> evolves s2 s3 f2 o2 ->
  evolves s1 s3 (f1 ++ f2) (o1 ++ o2).
Proof.
  intros (G1 & H1 & F1 & O1) (G2 & H2 & F2 & O2). unfold evolves.
  rewrite G2, H2, F2, O2, F1, O1, !app_assoc. done.
Qed.

Lemma printed_text_snoc t e :
  printed_text (t ++ [e]) =
  printed_text t ++ match e with Out s => [s] | _ => [] end.
Proof. unfold printed_text. rewrite omap_app. by destruct e. Qed.

Lemma evolves_logged_did o v s :
  evolves s (logged (Did o v) s)
    (match v with Some f => [(o, f)] | None => [] end) [].
Proof.
  unfold evolves. rewrite trace_logged, faults_snoc, printed_text_snoc.
  rewrite app_nil_r. done.
Qed.


Lemma evolves_with_stack bs s f o s' :
  evolves (with_stack bs s) s' f o -> evolves s s' f o.
Proof. done. Qed.

Lemma in_bounds_lookup (cs : list (option Z)) (i : nat) :
  in_bounds (Block cs true) (Z.of_nat i) = bool_decide (i < length cs)%nat.
Proof.
  unfold in_bounds. simpl.
  destruct (Z.leb_spec 0 (Z.of_nat i)); [|lia]. simpl.
  case_bool_decide; [apply Z.ltb_lt|apply Z.ltb_ge]; lia.
Qed.

(** A read of a written cell. *)
Lemma subscript_written s a cs (i : nat) v :
  array_at s a cs -> cs !! i = Some (Some v) ->
  subscript a (Z.of_nat i) s =
  (v, logged (Did (Subscript Read a (Z.of_nat i)) None) s).
Proof.
  intros Ha Hi. unfold subscript, mbind, M_bind, get_state, peek.
  rewrite Ha. simpl negb. cbv iota.
  rewrite in_bounds_lookup, bool_decide_true by (by eapply lookup_lt_Some).
  simpl cells. rewrite Nat2Z.id, Hi. reflexivity.
Qed.

(** A write, inside the array or past its end. *)
Lemma subscript_assign_run s a cs (i : nat) v :
  array_at s a cs ->
  subscript_assign a (Z.of_nat i) v s =
  (tt, logged (Did (Subscript Write a (Z.of_nat i))
                   (if (i <? length cs)%nat then None else Some OutOfBounds))
         (with_stack (<[a := Block (<[i := Some v]> cs) true]> (stack s)) s)).
Proof.
  intros Ha. unfold subscript_assign, mbind, M_bind, get_state, poke.
  rewrite Ha. simpl negb. cbv iota. rewrite in_bounds_lookup.
  destruct (Nat.ltb_spec i (length cs)).
  - rewrite bool_decide_true by done. simpl cells. rewrite Nat2Z.id. reflexivity.
  - rewrite bool_decide_false by lia.
    rewrite (list_insert_ge cs) by done.
    rewrite (list_insert_id (stack s)) by done. reflexivity.
Qed.

Lemma stored_length cs i l : length (stored cs i l) = length cs.
Proof.
  revert cs i. induction l as [|c l IH]; intros cs i; simpl; [done|].
  by rewrite IH, length_insert.
Qed.

Lemma stored_before cs i l k : (k < i)%nat -> stored cs i l !! k = cs !! k.
Proof.
  revert cs i. induction l as [|c l IH]; intros cs i Hk; simpl; [done|].
  rewrite IH by lia. apply list_lookup_insert_ne. lia.
Qed.

(** What fits is there afterwards. *)
Lemma stored_fits l : forall cs i,
  (i + length l <= length cs)%nat ->
  stored cs i l = take i cs ++ (Some <$> l) ++ drop (i + length l) cs.
Proof.
  induction l as [|c l IH]; intros cs i Hfit; simpl in *.
  - by rewrite Nat.add_0_r, take_drop.
  - rewrite IH by (rewrite length_insert; lia).
    rewrite drop_insert_lt by lia.
    replace (S i + length l)%nat with (i + S (length l))%nat by lia.
    rewrite (take_S_r (<[i:=Some c]> cs) i (Some c))
      by (apply list_lookup_insert_eq; lia).
    rewrite take_insert_ge by lia.
    by rewrite <- app_assoc.
Qed.

Lemma spill_fits a n l : forall i,
  (i + length l <= n)%nat -> spill a n i l = [].
Proof.
  induction l as [|c l IH]; intros i Hfit; simpl in *; [done|].
  destruct (Nat.ltb_spec i n); [|lia]. rewrite IH by lia. done.
Qed.

Lemma spill_beyond a n l : forall i,
  (n <= i)%nat ->
  spill a n i l =
  (fun k => (Subscript Write a (Z.of_nat k), OutOfBounds)) <$> seq i (length l).
Proof.
  induction l as [|c l IH]; intros i Hi; simpl; [done|].
  destruct (Nat.ltb_spec i n); [lia|]. rewrite IH by lia. done.
Qed.

(** The writes past the end, for a string that starts inside the array. *)
Lemma spill_over a n l : forall i,
  (i <= n <= i + length l)%nat ->
  spill a n i l =
  (fun k => (Subscript Write a (Z.of_nat k), OutOfBounds))
    <$> seq n (i + length l - n).
Proof.
  induction l as [|c l IH]; intros i Hi; simpl in *.
  - by replace (i + 0 - n)%nat with 0%nat by lia.
  - destruct (Nat.ltb_spec i n).
    + rewrite IH by lia. simpl. do 2 f_equal. lia.
    + assert (i = n) as -> by lia.
      rewrite spill_beyond by lia. simpl.
      replace (n + S (length l) - n)%nat with (S (length l)) by lia. done.
Qed.

Lemma write_bytes_run a l : forall s cs (i : nat),
  array_at s a cs ->
  exists s', write_bytes a (Z.of_nat i) l s = (tt, s') /\
    stack s' = <[a := Block (stored cs i l) true]> (stack s) /\
    evolves s s' (spill a (length cs) i l) [].
Proof.
  induction l as [|c l IH]; intros s cs i Ha; simpl.
  - exists s. split; [done|]. split; [|apply evolves_refl].
    symmetry. by apply list_insert_id.
  - unfold mbind, M_bind. rewrite (subscript_assign_run s a cs i c Ha).
    set (s1 := logged _ _).
    assert (Ha1 : array_at s1 a (<[i := Some c]> cs)).
    { unfold array_at. simpl. apply list_lookup_insert_eq.
      by eapply lookup_lt_Some. }
    replace (Z.of_nat i + 1) with (Z.of_nat (S i)) by lia.
    destruct (IH s1 _ (S i) Ha1) as (s' & Hrun & Hst & Hev).
    exists s'. split; [done|]. split.
    + rewrite Hst. simpl. apply list_insert_insert_eq.
    + rewrite length_insert in Hev.
      eapply (evolves_trans s s1 s' _ _ [] []); [|exact Hev].
      subst s1. eapply evolves_with_stack.
      destruct (i <? length cs)%nat; apply evolves_logged_did.
Qed.

Lemma drop_head (cs : list (option Z)) (i : nat) c tl :
  drop i cs = Some c :: tl -> cs !! i = Some (Some c) /\ drop (S i) cs = tl.
Proof.
  intros Hd.
  assert (Hi : cs !! i = Some (Some c)).
  { rewrite <- (Nat.add_0_r i), <- lookup_drop, Hd. done. }
  split; [done|]. rewrite (drop_S _ _ _ Hi) in Hd. by injection Hd.
Qed.

(** Reading a C string that lies inside its array. *)
Lemma read_cstr_run a str : forall fuel s cs (i : nat) rest,
  array_at s a cs ->
  drop i cs = (Some <$> str ++ [0]) ++ rest ->
  Forall (fun c => c <> 0) str ->
  (length str < fuel)%nat ->
  exists s', read_cstr fuel a (Z.of_nat i) s = (Some str, s') /\
    stack s' = stack s /\ evolves s s' [] [].
Proof.
  induction str as [|c str IH]; intros fuel s cs i rest Ha Hd Hnz Hfuel;
    (destruct fuel as [|fuel]; [simpl in Hfuel; lia|]); simpl in Hd.
  - apply drop_head in Hd as [Hi _]. simpl.
    unfold mbind, M_bind. rewrite (subscript_written s a cs i 0 Ha Hi).
    simpl. eexists. split; [done|]. split; [done|].
    apply (evolves_logged_did _ None).
  - apply drop_head in Hd as [Hi Hd].
    apply Forall_cons in Hnz as [Hc Hnz]. simpl.
    unfold mbind, M_bind. rewrite (subscript_written s a cs i c Ha Hi).
    destruct (Z.eqb_spec c 0); [done|].
    replace (Z.of_nat i + 1) with (Z.of_nat (S i)) by lia.
    set (s1 := logged _ s).
    destruct (IH fuel s1 cs (S i) rest) as (s' & Hrun & Hst & Hev);
      [done|done|done|simpl in Hfuel; lia|].
    rewrite Hrun. simpl. exists s'. split; [done|]. split; [done|].
    apply (evolves_trans s s1 s' [] [] [] []); [|done].
    apply (evolves_logged_did _ None).
Qed.

Lemma declare_run n s :
  declare n s =
  (length (stack s),
   logged (Did (Decl (length (stack s)) n) None)
     (with_stack (stack s ++ [Block (replicate n None) true]) s)).
Proof. reflexivity. Qed.



Lemma expand_lits fuel l ds args s :
  expand fuel ((Lit <$> l) ++ ds) args s =
  ((app l <$> (expand fuel ds args s).1), (expand fuel ds args s).2).
Proof.
  induction l as [|c l IH].
  - simpl. destruct (expand fuel ds args s) as [[r|] s']; done.
  - change (expand fuel ((Lit <$> c :: l) ++ ds) args s)
      with ((r ← expand fuel ((Lit <$> l) ++ ds) args; mret (cons c <$> r)) s).
    unfold mbind, M_bind. rewrite IH.
    destruct (expand fuel ds args s) as [[r|] s']; done.
Qed.

Lemma expand_only_lits fuel l args s :
  expand fuel (Lit <$> l) args s = (Some l, s).
Proof.
  rewrite <- (app_nil_r (Lit <$> l)), expand_lits. simpl.
  by rewrite app_nil_r.
Qed.

Lemma expand_one_str fuel pre post a s str s1 :
  read_cstr fuel a 0 s = (Some str, s1) ->
  expand fuel ((Lit <$> pre) ++ Str :: (Lit <$> post)) [a] s =
  (Some (pre ++ str ++ post), s1).
Proof.
  intros Hrun. rewrite expand_lits.
  assert (H : expand fuel (Str :: (Lit <$> post)) [a] s = (Some (str ++ post), s1)).
  { change (expand fuel (Str :: (Lit <$> post)) [a] s)
      with ((s ← read_cstr fuel a 0;
             r ← expand fuel (Lit <$> post) [];
             mret (match s, r with
                   | Some s, Some r => Some (s ++ r)
                   | _, _ => None
                   end)) s).
    unfold mbind, M_bind. rewrite Hrun, expand_only_lits. done. }
  rewrite H. done.
Qed.

(** A format with one [%s] between ordinary characters. *)
Lemma sprintf_run fuel dst fmt a s cs_a cs_dst pre post str rest :
  directives (bytes fmt) = (Lit <$> pre) ++ Str :: (Lit <$> post) ->
  array_at s a cs_a -> array_at s dst cs_dst ->
  cs_a = (Some <$> str ++ [0]) ++ rest ->
  Forall (fun c => c <> 0) str ->
  (length str < fuel)%nat ->
  exists s', sprintf fuel dst fmt [a] s =
             (Some (Z.of_nat (length (pre ++ str ++ post))), s') /\
    stack s' =
      <[dst := Block (stored cs_dst 0 ((pre ++ str ++ post) ++ [0])) true]> (stack s) /\
    evolves s s' (spill dst (length cs_dst) 0 ((pre ++ str ++ post) ++ [0])) [].
Proof.
  intros Hfmt Ha Hdst Hcs Hnz Hfuel. unfold sprintf, mbind, M_bind.
  destruct (read_cstr_run a str fuel s cs_a 0 rest) as (s1 & Hrun & Hst & Hev);
    [done|by rewrite drop_0|done|done|].
  change (Z.of_nat 0) with 0 in Hrun.
  rewrite Hfmt, (expand_one_str fuel pre post a s str s1 Hrun).
  assert (Hdst1 : array_at s1 dst cs_dst) by (unfold array_at; by rewrite Hst).
  destruct (write_bytes_run dst ((pre ++ str ++ post) ++ [0]) s1 cs_dst 0 Hdst1)
    as (s2 & Hrun2 & Hst2 & Hev2).
  change (Z.of_nat 0) with 0 in Hrun2. rewrite Hrun2.
  simpl. exists s2. split; [done|]. split; [by rewrite Hst2, Hst|].
  apply (evolves_trans s s1 s2 [] _ [] []); done.
Qed.

Ltac nonzero := vm_compute; repeat (constructor; [discriminate|]); constructor.

(** *** The process around the machine *)

Lemma prun_bind {A B} (m : P A) (k : A -> P B) p :
  (m ≫= k) p = k (m p).1 (m p).2.
Proof. unfold mbind, P_bind. by destruct (m p). Qed.

Lemma lift_run {A} (m : M A) p :
  lift m p = ((m (machine p)).1, with_machine (m (machine p)).2 p).
Proof. unfold lift. by destruct (m (machine p)). Qed.



Lemma cin_extract_run a size p cs :
  cin_good p = true ->
  extracted size p <> [] ->
  array_at (machine p) a cs ->
  exists p', cin_extract a size p = (tt, p') /\
    stack (machine p') =
      <[a := Block (stored cs 0 (extracted size p ++ [0])) true]>
        (stack (machine p)) /\
    evolves (machine p) (machine p')
      (spill a (length cs) 0 (extracted size p ++ [0])) [] /\
    shell p' = shell p /\ extractor_bounded p' = extractor_bounded p.
Proof.
  unfold extracted. intros Hgood Hw Ha. unfold cin_extract. rewrite Hgood.
  destruct (skip_ws (stdin p)) as [|c l] eqn:Hskip; [done|].
  destruct (span_word (room_for size p) (c :: l)) as [w rest]. simpl in *.
  destruct (write_bytes_run a (w ++ [0]) (machine p) cs 0 Ha)
    as (s' & Hrun & Hst & Hev).
  change (Z.of_nat 0) with 0 in Hrun. rewrite Hrun.
  eexists. split; [reflexivity|]. simpl. done.
Qed.

(** Nothing to extract: the array is left as it was. *)
Lemma cin_extract_nothing a size p :
  cin_good p = false \/ skip_ws (stdin p) = [] ->
  machine (cin_extract a size p).2 = machine p /\
  shell (cin_extract a size p).2 = shell p.
Proof.
  intros [Hbad|Hend]; unfold cin_extract.
  - by rewrite Hbad.
  - rewrite Hend. by destruct (cin_good p).
Qed.

Lemma system_run fuel cmd p cs str rest :
  array_at (machine p) cmd cs ->
  cs = (Some <$> str ++ [0]) ++ rest ->
  Forall (fun c => c <> 0) str ->
  (length str < fuel)%nat ->
  exists p', system fuel cmd p = (true, p') /\
    shell p' = shell p ++ [str] /\
    stack (machine p') = stack (machine p) /\
    evolves (machine p) (machine p') [] [].
Proof.
  intros Ha Hcs Hnz Hfuel. unfold system. rewrite prun_bind, lift_run.
  destruct (read_cstr_run cmd str fuel (machine p) cs 0 rest)
    as (s1 & Hrun & Hst & Hev); [done|by rewrite drop_0|done|done|].
  change (Z.of_nat 0) with 0 in Hrun. rewrite Hrun. simpl.
  eexists. split; [reflexivity|]. simpl. done.
Qed.

(** *** Arrays among the other objects *)

Lemma array_at_pushed s bs blk a cs :
  stack s = bs ++ [blk] -> (a < length bs)%nat ->
  bs !! a = Some (Block cs true) -> array_at s a cs.
Proof. intros Hs Ha Hb. unfold array_at. rewrite Hs, lookup_app_l; done. Qed.

Lemma array_at_new s bs cs :
  stack s = bs ++ [Block cs true] -> array_at s (length bs) cs.
Proof. intros Hs. unfold array_at. rewrite Hs. apply list_lookup_middle. done. Qed.

Lemma array_at_updated s bs a cs :
  stack s = <[a := Block cs true]> bs -> (a < length bs)%nat -> array_at s a cs.
Proof. intros Hs Ha. unfold array_at. rewrite Hs. by apply list_lookup_insert_eq. Qed.


(** A word that fits, with its null character, at the front of a fresh array. *)
Lemma stored_word n w :
  (length w < n)%nat ->
  stored (replicate n None) 0 (w ++ [0]) =
  (Some <$> w ++ [0]) ++ replicate (n - S (length w)) None.
Proof.
  intros Hn. rewrite stored_fits by (rewrite length_replicate, length_app; simpl; lia).
  rewrite length_app. simpl. rewrite drop_replicate. do 2 f_equal. lia.
Qed.

(** *** The routines on characters *)

Import semgrep_strings.

Lemma evolves_declared n s :
  evolves s (declare n s).2 [] [].
Proof. rewrite declare_run. simpl. eapply evolves_with_stack, (evolves_logged_did _ None). Qed.

Lemma nonzero_app (l k : list Z) :
  Forall (fun c => c <> 0) l -> Forall (fun c => c <> 0) k ->
  Forall (fun c => c <> 0) (l ++ k).
Proof. intros. by apply Forall_app. Qed.

(** What the two routines that format a word have in common: the word is
    extracted into [user_input], and [sprintf] puts it between [pre] and
    [post] at the front of the second array. *)
Lemma extract_and_format fuel fmt pre post p :
  directives (bytes fmt) = (Lit <$> pre) ++ Str :: (Lit <$> post) ->
  cin_good p = true ->
  extracted 100 p <> [] ->
  (length (extracted 100 p) < 100)%nat ->
  Forall (fun c => c <> 0) (extracted 100 p) ->
  (length pre + length post < 100)%nat ->
  (length (extracted 100 p) < fuel)%nat ->
  let u := length (stack (machine p)) in
  let line := pre ++ extracted 100 p ++ post in
  exists p',
    (user_input ← lift (declare 100);
     cin_extract user_input 100;;
     dst ← lift (declare 200);
     n ← lift (sprintf fuel dst fmt [user_input]);
     mret (dst, n)) p = ((S u, Some (Z.of_nat (length line))), p') /\
    array_at (machine p') (S u)
      ((Some <$> line ++ [0]) ++ replicate (200 - S (length line)) None) /\
    shell p' = shell p /\
    evolves (machine p) (machine p') [] [].
Proof.
  intros Hfmt Hgood Hw Hlen Hnz Hfix Hfuel u line.
  set (w := extracted 100 p) in *.
  rewrite prun_bind, lift_run, declare_run. cbn [fst snd]. fold u.
  set (s1 := logged _ _). set (p1 := with_machine s1 p).
  assert (Hs1 : stack s1 = stack (machine p) ++ [Block (replicate 100 None) true])
    by reflexivity.
  assert (Hev1 : evolves (machine p) s1 [] []).
  { eapply evolves_with_stack, (evolves_logged_did _ None). }
  rewrite prun_bind.
  destruct (cin_extract_run u 100 p1 (replicate 100 None))
    as (p2 & Hrun2 & Hst2 & Hev2 & Hsh2 & _);
    [done|done|by apply array_at_new|].
  rewrite Hrun2. cbn [fst snd].
  change (extracted 100 p1) with w in Hst2, Hev2.
  rewrite spill_fits in Hev2
    by (rewrite length_replicate, length_app; simpl; lia).
  change (machine p1) with s1 in Hst2, Hev2.
  rewrite prun_bind, lift_run, declare_run. cbn [fst snd].
  assert (Hlen2 : length (stack (machine p2)) = S u).
  { rewrite Hst2, length_insert, Hs1, length_app. simpl. unfold u. lia. }
  rewrite Hlen2.
  set (s3 := logged _ _). set (p3 := with_machine s3 p2).
  assert (Hs3 : stack s3 = stack (machine p2) ++ [Block (replicate 200 None) true])
    by reflexivity.
  assert (Hev3 : evolves (machine p2) s3 [] []).
  { eapply evolves_with_stack, (evolves_logged_did _ None). }
  assert (Hu3 : array_at s3 u
                  ((Some <$> w ++ [0]) ++ replicate (100 - S (length w)) None)).
  { apply (array_at_pushed s3 _ _ u _ Hs3); [lia|].
    rewrite Hst2, (stored_word 100 w) by done.
    apply list_lookup_insert_eq. rewrite Hs1, length_app. simpl. unfold u. lia. }
  assert (Hd3 : array_at s3 (S u) (replicate 200 None)).
  { rewrite <- Hlen2. by apply array_at_new. }
  rewrite prun_bind, lift_run.
  destruct (sprintf_run fuel (S u) fmt u s3 _ _ pre post w _ Hfmt Hu3 Hd3 eq_refl Hnz Hfuel)
    as (s4 & Hrun4 & Hst4 & Hev4).
  change (machine p3) with s3. rewrite Hrun4. cbn [fst snd].
  fold line in Hst4, Hev4 |- *.
  rewrite spill_fits in Hev4
    by (rewrite length_replicate, length_app; unfold line; rewrite !length_app; simpl; lia).
  eexists. split; [reflexivity|]. simpl. split; [|split].
  - rewrite (stored_word 200 line) in Hst4
      by (unfold line; rewrite !length_app; lia).
    apply (array_at_updated s4 _ _ _ Hst4).
    rewrite Hs3, length_app, Hlen2. simpl. lia.
  - done.
  - pose proof (evolves_trans _ _ _ _ _ _ _ Hev1 Hev2) as H12.
    pose proof (evolves_trans _ _ _ _ _ _ _ H12 Hev3) as H13.
    exact (evolves_trans _ _ _ _ _ _ _ H13 Hev4).
Qed.

Lemma command_injection_stages fuel p :
  semgrep_command_injection fuel p =
  (r ← (user_input ← lift (declare 100);
        cin_extract user_input 100;;
        dst ← lift (declare 200);
        n ← lift (sprintf fuel dst "ls %s" [user_input]);
        mret (dst, n));
   match r.2 with
   | Some _ => system fuel r.1
   | None => mret false
   end) p.
Proof.
  unfold semgrep_command_injection, mbind, P_bind.
  destruct (lift (declare 100) p) as [u p1].
  destruct (cin_extract u 100 p1) as [[] p2].
  destruct (lift (declare 200) p2) as [d p3].
  destruct (lift (sprintf fuel d "ls %s" [u]) p3) as [n p4]. reflexivity.
Qed.


Lemma command_injection_word (fuel : nat) (p : process) :
  cin_good p = true ->
  extracted 100 p <> [] ->
  (length (extracted 100 p) < 100)%nat ->
  Forall (fun c => c <> 0) (extracted 100 p) ->
  (length (extracted 100 p) + 3 < fuel)%nat ->
  exists p',
    semgrep_command_injection fuel p = (true, p') /\
    shell p' = shell p ++ [bytes "ls " ++ extracted 100 p] /\
    evolves (machine p) (machine p') [] [].
Proof.
  intros Hgood Hw Hlen Hnz Hfuel.
  rewrite command_injection_stages, prun_bind.
  destruct (extract_and_format fuel "ls %s" (bytes "ls ") [] p)
    as (p1 & Hrun & Hcmd & Hsh & Hev); try done; try (simpl; lia).
  rewrite Hrun. cbn [fst snd].
  rewrite app_nil_r in Hcmd.
  destruct (system_run fuel (S (length (stack (machine p)))) p1 _
              (bytes "ls " ++ extracted 100 p) _ Hcmd eq_refl)
    as (p2 & Hrun2 & Hsh2 & _ & Hev2).
  { apply nonzero_app; [|done]. repeat constructor; done. }
  { rewrite length_app. simpl. lia. }
  exists p2. split; [done|]. split; [by rewrite Hsh2, Hsh|].
  exact (evolves_trans _ _ _ _ _ _ _ Hev Hev2).
Qed.



(** X4.  semgrep_command_injection hands the word it extracts from standard
    input to the command processor behind "ls ", byte for byte, and no
    check fails. *)
Theorem command_injection_runs_the_word (fuel : nat) (p : process) :
  cin_good p = true ->
  extracted 100 p <> [] ->
  (length (extracted 100 p) < 100)%nat ->
  Forall (fun c => c <> 0) (extracted 100 p) ->
  (length (extracted 100 p) + 3 < fuel)%nat ->
  exists p',
    semgrep_command_injection fuel p = (true, p') /\
    shell p' = shell p ++ [bytes "ls " ++ extracted 100 p] /\
    evolves (machine p) (machine p') [] [].
Proof. apply command_injection_word. Qed.

(** X4 on an input with a second command in it. *)
Lemma command_injection_runs_the_word_after_a_semicolon :
  exists p',
    semgrep_command_injection 20 (fed (bytes "x;reboot now") false) = (true, p') /\
    shell p' = [bytes "ls x;reboot"] /\
    evolves (machine (fed (bytes "x;reboot now") false)) (machine p') [] [].
Proof.
  apply (command_injection_runs_the_word 20 (fed (bytes "x;reboot now") false));
    [reflexivity | discriminate | vm_compute; lia | nonzero | vm_compute; lia].
Defined.

(** *** Logs only grow *)

Lemma grows_refl s : grows s s.
Proof. exists []. by rewrite app_nil_r. Qed.

Lemma grows_trans s1 s2 s3 : grows s1 s2 -> grows s2 s3 -> grows s1 s3.
Proof. intros [l1 H1] [l2 H2]. exists (l1 ++ l2). by rewrite H2, H1, app_assoc. Qed.

Lemma grows_faults s s' :
  grows s s' -> exists more, faults (trace s') = faults (trace s) ++ more.
Proof. intros [l Hl]. exists (faults l). rewrite Hl. unfold faults. apply omap_app. Qed.

Lemma growing_ret {A} (a : A) : growing (mret a).
Proof. intros s. apply grows_refl. Qed.

Lemma growing_bind {A B} (m : M A) (k : A -> M B) :
  growing m -> (forall a, growing (k a)) -> growing (m ≫= k).
Proof.
  intros Hm Hk s. rewrite run_bind.
  eapply grows_trans; [apply Hm|apply Hk].
Qed.

Lemma growing_emit e : growing (emit e).
Proof. intros s. exists [e]. reflexivity. Qed.

Lemma growing_settle o pr : growing (settle o pr).
Proof. intros s. destruct pr; eexists; reflexivity. Qed.

Lemma growing_subscript a i : growing (subscript a i).
Proof. intros s. unfold subscript. rewrite run_bind. apply growing_settle. Qed.

Lemma growing_subscript_assign a i v : growing (subscript_assign a i v).
Proof.
  intros s. unfold subscript_assign. rewrite run_bind. simpl.
  destruct (poke (stack s) a i v). eexists. reflexivity.
Qed.

Lemma growing_read_cstr fuel : forall a i, growing (read_cstr fuel a i).
Proof.
  induction fuel as [|fuel IH]; intros a i; simpl; [apply growing_ret|].
  apply growing_bind; [apply growing_subscript|]. intros c.
  destruct (c =? 0); [apply growing_ret|].
  apply growing_bind; [apply IH|]. intros r. apply growing_ret.
Qed.

Lemma growing_write_bytes a l : forall i, growing (write_bytes a i l).
Proof.
  induction l as [|c l IH]; intros i; simpl; [apply growing_ret|].
  apply growing_bind; [apply growing_subscript_assign|]. intros _. apply IH.
Qed.

Lemma growing_strcpy fuel dst src : growing (strcpy fuel dst src).
Proof.
  apply growing_bind; [apply growing_read_cstr|]. intros [l|]; [|apply growing_ret].
  apply growing_bind; [apply growing_write_bytes|]. intros _. apply growing_ret.
Qed.

Lemma growing_out_cstr fuel a : growing (out_cstr fuel a).
Proof.
  apply growing_bind; [apply growing_read_cstr|]. intros [l|]; [|apply growing_ret].
  apply growing_bind; [apply growing_emit|]. intros _. apply growing_ret.
Qed.

Lemma growing_expand fuel ds : forall args, growing (expand fuel ds args).
Proof.
  induction ds as [|[c|] ds IH]; intros args; simpl; [apply growing_ret| |].
  - apply growing_bind; [apply IH|]. intros r. apply growing_ret.
  - destruct args as [|a args]; [apply growing_ret|].
    apply growing_bind; [apply growing_read_cstr|]. intros s.
    apply growing_bind; [apply IH|]. intros r. apply growing_ret.
Qed.

Lemma growing_sprintf fuel dst fmt args : growing (sprintf fuel dst fmt args).
Proof.
  apply growing_bind; [apply growing_expand|]. intros [l|]; [|apply growing_ret].
  apply growing_bind; [apply growing_write_bytes|]. intros _. apply growing_ret.
Qed.

Lemma pgrowing_ret {A} (a : A) : pgrowing (mret a).
Proof. intros p. apply grows_refl. Qed.

Lemma pgrowing_bind {A B} (m : P A) (k : A -> P B) :
  pgrowing m -> (forall a, pgrowing (k a)) -> pgrowing (m ≫= k).
Proof.
  intros Hm Hk p. rewrite prun_bind.
  eapply grows_trans; [apply Hm|apply Hk].
Qed.

Lemma pgrowing_lift {A} (m : M A) : growing m -> pgrowing (lift m).
Proof. intros Hm p. rewrite lift_run. apply Hm. Qed.

Lemma pgrowing_system fuel cmd : pgrowing (system fuel cmd).
Proof.
  apply pgrowing_bind; [apply pgrowing_lift, growing_read_cstr|].
  intros [l|]; [|apply pgrowing_ret].
  apply pgrowing_bind; [|intros _; apply pgrowing_ret].
  intros p. apply grows_refl.
Qed.

Lemma starts_with_bind {A B} (m : M A) (k : A -> M B) s pre :
  starts_with m s pre -> (forall a, growing (k a)) -> starts_with (m ≫= k) s pre.
Proof.
  intros [more Hm] Hk. unfold starts_with. rewrite run_bind.
  destruct (Hk (m s).1 (m s).2) as [l Hl].
  exists (more ++ l). rewrite Hl, Hm, <- !app_assoc. done.
Qed.

(** A read of a cell that nothing was stored in. *)
Lemma read_cstr_unwritten fuel a s cs :
  array_at s a cs -> cs !! 0%nat = Some None ->
  starts_with (read_cstr (S fuel) a 0) s
    [Did (Subscript Read a 0) (Some Uninitialized)].
Proof.
  intros Ha Hc.
  change (read_cstr (S fuel) a 0)
    with (c ← subscript a 0;
          if c =? 0 then mret (Some [])
          else r ← read_cstr fuel a (0 + 1); mret (cons c <$> r)).
  apply starts_with_bind.
  - exists []. rewrite app_nil_r.
    unfold subscript, mbind, M_bind, get_state, peek. rewrite Ha. simpl negb. cbv iota.
    change 0 with (Z.of_nat 0).
    rewrite in_bounds_lookup, bool_decide_true by (by eapply lookup_lt_Some).
    simpl cells. rewrite Nat2Z.id, Hc. reflexivity.
  - intros c. destruct (c =? 0); [apply growing_ret|].
    apply growing_bind; [apply growing_read_cstr|]. intros r. apply growing_ret.
Qed.

Lemma pstarts_with_bind {A B} (m : P A) (k : A -> P B) p pre :
  pstarts_with m p pre -> (forall a, pgrowing (k a)) -> pstarts_with (m ≫= k) p pre.
Proof.
  intros [more Hm] Hk. unfold pstarts_with. rewrite prun_bind.
  destruct (Hk (m p).1 (m p).2) as [l Hl].
  exists (more ++ l). rewrite Hl, Hm, <- !app_assoc. done.
Qed.

Lemma pstarts_with_lift {A} (m : M A) p pre :
  starts_with m (machine p) pre -> pstarts_with (lift m) p pre.
Proof. intros H. unfold pstarts_with. by rewrite lift_run. Qed.

Lemma pstarts_with_faults {A} (m : P A) p s pre :
  pstarts_with m p pre -> trace (machine p) = trace s ++ [] ->
  exists more, faults (trace (machine (m p).2)) = faults (trace s) ++ faults pre ++ more.
Proof.
  intros [more Hm] Hs. exists (faults more).
  rewrite Hm, Hs, app_nil_r. unfold faults. by rewrite !omap_app.
Qed.

Lemma starts_with_expand fuel pre post a s cs :
  array_at s a cs -> cs !! 0%nat = Some None ->
  starts_with (expand (S fuel) ((Lit <$> pre) ++ Str :: post) [a]) s
    [Did (Subscript Read a 0) (Some Uninitialized)].
Proof.
  intros Ha Hc. unfold starts_with. rewrite expand_lits. cbn [snd].
  change (expand (S fuel) (Str :: post) [a])
    with (s ← read_cstr (S fuel) a 0;
          r ← expand (S fuel) post [];
          mret (match s, r with
                | Some s, Some r => Some (s ++ r)
                | _, _ => None
                end)).
  apply starts_with_bind; [by eapply read_cstr_unwritten|].
  intros r. apply growing_bind; [apply growing_expand|]. intros ?. apply growing_ret.
Qed.

(** Two arrays declared, nothing extracted: both are as declared. *)
Lemma nothing_extracted n m a p :
  cin_good p = false \/ skip_ws (stdin p) = [] ->
  let u := length (stack (machine p)) in
  let p1 := (lift (declare n) p).2 in
  let p2 := (cin_extract a m p1).2 in
  machine p2 = machine p1 /\
  array_at (machine p1) u (replicate n None) /\
  trace (machine p1) = trace (machine p) ++ [Did (Decl u n) None] /\
  length (stack (machine p1)) = S u.
Proof.
  intros Hno u p1 p2. subst p1 p2. rewrite lift_run, declare_run. cbn [fst snd].
  split; [by apply cin_extract_nothing|].
  split; [by apply array_at_new|]. split; [reflexivity|].
  simpl. rewrite length_app. simpl. lia.
Qed.

(** X5.  On empty input (or with a stream that already failed) nothing is
    stored in [user_input], and the first check to fail in
    [semgrep_command_injection] is the read of [user_input[0]], which was
    never written. *)
Theorem command_injection_on_empty_input (fuel : nat) (p : process) :
  cin_good p = false \/ skip_ws (stdin p) = [] ->
  (0 < fuel)%nat ->
  exists more,
    faults (trace (machine (semgrep_command_injection fuel p).2)) =
    faults (trace (machine p)) ++
    (Subscript Read (length (stack (machine p))) 0, Uninitialized) :: more.
Proof.
  intros Hno Hfuel. destruct fuel as [|fuel]; [lia|].
  unfold semgrep_command_injection.
  rewrite prun_bind, lift_run, declare_run. cbn [fst snd].
  set (u := length (stack (machine p))). set (s1 := logged _ _).
  rewrite prun_bind.
  destruct (cin_extract_nothing u 100 (with_machine s1 p) Hno) as [Hm2 _].
  set (p2 := (cin_extract u 100 (with_machine s1 p)).2) in *.
  change (machine (with_machine s1 p)) with s1 in Hm2.
  rewrite prun_bind, lift_run, declare_run. cbn [fst snd]. rewrite Hm2.
  set (s3 := logged _ _).
  assert (Hu : array_at s3 u (replicate 100 None)).
  { apply (array_at_pushed s3 (stack s1) (Block (replicate 200 None) true));
      [reflexivity|simpl; rewrite length_app; simpl; lia|].
    apply (array_at_new s1). reflexivity. }
  set (cmd := length (stack s1)).
  destruct (pstarts_with_bind (lift (sprintf (S fuel) cmd "ls %s" [u]))
              (fun n => match n with
                        | Some _ => system (S fuel) cmd
                        | None => mret false
                        end)
              (with_machine s3 p2)
              [Did (Subscript Read u 0) (Some Uninitialized)]) as [more Hmore].
  { apply pstarts_with_lift. apply starts_with_bind.
    - apply (starts_with_expand fuel (bytes "ls ") [] u s3 _ Hu). reflexivity.
    - intros [l|]; [|apply growing_ret].
      apply growing_bind; [apply growing_write_bytes|]. intros _. apply growing_ret. }
  { intros [n|]; [apply pgrowing_system|apply pgrowing_ret]. }
  exists (faults more). rewrite Hmore.
  change (trace (machine (with_machine s3 p2)))
    with ((trace (machine p) ++ [Did (Decl u 100) None]) ++ [Did (Decl cmd 200) None]).
  unfold faults. rewrite !omap_app. simpl. by rewrite !app_nil_r.
Qed.

(** X5 on an input of two spaces. *)
Lemma command_injection_on_blank_input :
  exists more,
    faults (trace (machine (semgrep_command_injection 1 (fed (bytes "  ") false)).2)) =
    (Subscript Read 0 0, Uninitialized) :: more.
Proof.
  refine (command_injection_on_empty_input 1 (fed (bytes "  ") false) _ _);
    [right; reflexivity | lia].
Defined.







(** X10.  On empty input (or with a stream that already failed) nothing is
    stored in [input], and the first check to fail in
    [semgrep_buffer_overflow] is [strcpy]'s read of [input[0]], which was
    never written. *)
Theorem buffer_overflow_on_empty_input (fuel : nat) (p : process) :
  cin_good p = false \/ skip_ws (stdin p) = [] ->
  (0 < fuel)%nat ->
  exists more,
    faults (trace (machine (semgrep_buffer_overflow fuel p).2)) =
    faults (trace (machine p)) ++
    (Subscript Read (S (length (stack (machine p)))) 0, Uninitialized) :: more.
Proof.
  intros Hno Hfuel. destruct fuel as [|fuel]; [lia|].
  unfold semgrep_buffer_overflow.
  rewrite prun_bind, lift_run, declare_run. cbn [fst snd].
  set (u := length (stack (machine p))). set (s1 := logged _ _).
  rewrite prun_bind, lift_run, declare_run. cbn [fst snd].
  change (machine (with_machine s1 p)) with s1.
  assert (Hlen1 : length (stack s1) = S u).
  { simpl. rewrite length_app. simpl. unfold u. lia. }
  rewrite Hlen1. set (s2 := logged _ _).
  set (p2 := with_machine s2 (with_machine s1 p)).
  rewrite prun_bind.
  destruct (cin_extract_nothing (S u) 100 p2 Hno) as [Hm3 _].
  set (p3 := (cin_extract (S u) 100 p2).2) in *.
  change (machine p2) with s2 in Hm3.
  assert (Hin : array_at (machine p3) (S u) (replicate 100 None)).
  { rewrite Hm3, <- Hlen1. apply array_at_new. reflexivity. }
  destruct (pstarts_with_bind (lift (strcpy (S fuel) u (S u)))
              (fun copied : bool =>
                 if copied then
                   (shown ← lift (out_cstr (S fuel) u); lift endl;; mret shown)
                 else mret false)
              p3 [Did (Subscript Read (S u) 0) (Some Uninitialized)]) as [more Hmore].
  { apply pstarts_with_lift. apply starts_with_bind.
    - apply (read_cstr_unwritten fuel (S u) _ _ Hin). reflexivity.
    - intros [l|]; [|apply growing_ret].
      apply growing_bind; [apply growing_write_bytes|]. intros _. apply growing_ret. }
  { intros [|]; [|apply pgrowing_ret].
    apply pgrowing_bind; [apply pgrowing_lift, growing_out_cstr|]. intros shown.
    apply pgrowing_bind; [apply pgrowing_lift, growing_emit|]. intros _.
    apply pgrowing_ret. }
  exists (faults more). rewrite Hmore, Hm3.
  change (trace s2)
    with ((trace (machine p) ++ [Did (Decl u 10) None]) ++ [Did (Decl (S u) 100) None]).
  unfold faults. rewrite !omap_app. simpl. by rewrite !app_nil_r.
Qed.

(** X10 on no input at all. *)
Lemma buffer_overflow_on_blank_input :
  exists more,
    faults (trace (machine (semgrep_buffer_overflow 1 (fed [] false)).2)) =
    (Subscript Read 1 0, Uninitialized) :: more.
Proof.
  refine (buffer_overflow_on_empty_input 1 (fed [] false) _ _);
    [right; reflexivity | lia].
Defined.

Lemma growing_declare n : growing (declare n).
Proof. intros s. rewrite declare_run. eexists. reflexivity. Qed.

(** X6.  In [semgrep_command_injection], with the extractor that does not
    know the size of its array, a word of 100 characters or more overflows
    [user_input]: the extraction writes the characters from index 100 on
    and the null character past its end, and these are the first checks to
    fail. *)
Theorem command_injection_overflows_user_input (fuel : nat) (p : process) :
  cin_good p = true ->
  extractor_bounded p = false ->
  (100 <= length (extracted 100 p))%nat ->
  exists more,
    faults (trace (machine (semgrep_command_injection fuel p).2)) =
    faults (trace (machine p)) ++
    ((fun k => (Subscript Write (length (stack (machine p))) (Z.of_nat k), OutOfBounds))
       <$> seq 100 (length (extracted 100 p) - 99)) ++ more.
Proof.
  intros Hgood Hunb Hlen. unfold semgrep_command_injection.
  rewrite prun_bind, lift_run, declare_run. cbn [fst snd].
  set (u := length (stack (machine p))). set (s1 := logged _ _).
  set (p1 := with_machine s1 p).
  rewrite prun_bind.
  destruct (cin_extract_run u 100 p1 (replicate 100 None))
    as (p2 & Hrun2 & _ & Hev2 & _).
  { done. }
  { change (extracted 100 p1) with (extracted 100 p).
    intros Hw. rewrite Hw in Hlen. simpl in Hlen. lia. }
  { by apply array_at_new. }
  rewrite Hrun2. cbn [fst snd].
  change (extracted 100 p1) with (extracted 100 p) in Hev2.
  rewrite length_replicate, spill_over in Hev2 by (rewrite length_app; simpl; lia).
  rewrite length_app in Hev2. simpl in Hev2.
  replace (length (extracted 100 p) + 1 - 100)%nat
    with (length (extracted 100 p) - 99)%nat in Hev2 by lia.
  destruct Hev2 as (_ & _ & Hf & _).
  set (k := (cmd ← lift (declare 200);
             n ← lift (sprintf fuel cmd "ls %s" [u]);
             match n with
             | Some _ => system fuel cmd
             | None => mret false
             end) : P bool).
  assert (Hk : pgrowing k).
  { apply pgrowing_bind; [apply pgrowing_lift, growing_declare|]. intros cmd.
    apply pgrowing_bind; [apply pgrowing_lift, growing_sprintf|].
    intros [n|]; [apply pgrowing_system|apply pgrowing_ret]. }
  destruct (grows_faults _ _ (Hk p2)) as [more Hmore].
  exists more. fold k. rewrite Hmore, Hf.
  change (faults (trace (machine p1))) with (faults (trace s1)).
  assert (Hs1 : faults (trace s1) = faults (trace (machine p))).
  { unfold s1. rewrite trace_logged, faults_snoc. apply app_nil_r. }
  rewrite Hs1, <- app_assoc. done.
Qed.

(** X6 on 120 characters. *)
Lemma command_injection_overflows_user_input_on_120_characters :
  exists more,
    faults (trace (machine (semgrep_command_injection 0 (fed (replicate 120 65) false)).2)) =
    ((fun k => (Subscript Write 0 (Z.of_nat k), OutOfBounds)) <$> seq 100 21) ++ more.
Proof.
  refine (command_injection_overflows_user_input 0 (fed (replicate 120 65) false) _ _ _);
    [reflexivity | reflexivity | vm_compute; lia].
Defined.



(** *** The routines on the heap and on the counter *)

Lemma live_ints_app h1 h2 : live_ints (h1 ++ h2) = (live_ints h1 + live_ints h2)%nat.
Proof. apply sum_list_with_app. Qed.

Lemma memory_leak_run s :
  semgrep_example.semgrep_memory_leak s =
  (tt, logged (Did (New (length (heap s)) 100) None)
         (with_heap (heap s ++ [Block (replicate 100 None) true]) s)).
Proof. reflexivity. Qed.

(** X12.  Every call of [semgrep_memory_leak] adds a live object of 100 ints
    to the heap and releases nothing: after [k] calls the heap is the old
    one followed by [k] such objects, and no check has failed. *)
Theorem memory_leak_leaks_every_call (k : nat) (s : state) :
  let s' := (times k semgrep_example.semgrep_memory_leak s).2 in
  heap s' = heap s ++ replicate k (Block (replicate 100 None) true)
  /\ live_ints (heap s') = (live_ints (heap s) + 100 * k)%nat
  /\ faults (trace s') = faults (trace s)
  /\ globals s' = globals s /\ stack s' = stack s.
Proof.
  revert s. induction k as [|k IH]; intros s; cbn zeta.
  - simpl. rewrite app_nil_r. repeat split; lia.
  - change (times (S k) semgrep_example.semgrep_memory_leak s)
      with ((semgrep_example.semgrep_memory_leak;;
             times k semgrep_example.semgrep_memory_leak) s).
    rewrite run_bind, memory_leak_run. cbn [fst snd].
    set (s1 := logged _ _).
    destruct (IH s1) as (Hh & Hl & Hf & Hg & Hst).
    rewrite Hh, Hf, Hg, Hst.
    split; [|split; [|split; [|done]]].
    + simpl. by rewrite <- app_assoc.
    + rewrite Hh in Hl. rewrite live_ints_app in *.
      rewrite Hl. simpl heap. rewrite live_ints_app.
      change (live_ints [_]) with 100%nat. lia.
    + unfold s1. rewrite trace_logged, faults_snoc. apply app_nil_r.
Qed.

Lemma use_after_free_run s :
  semgrep_example.semgrep_use_after_free s =
  (tt, logged (Did (Delete (HeapPtr (length (heap s)) 0)) None)
         (with_heap (heap s ++ [Block [Some 42] false])
            (logged (Did (New (length (heap s)) 1) None) s))).
Proof.
  unfold semgrep_example.semgrep_use_after_free, new_int, delete, mbind, M_bind,
    get_state. simpl.
  rewrite list_lookup_middle by done. simpl.
  rewrite (insert_app_r_alt (heap s) [_]) by done.
  rewrite Nat.sub_diag. reflexivity.
Qed.

(** X13.  [semgrep_use_after_free] leaves the heap with one more object,
    which is dead: the live ints are as before and no check fails; a store
    through the pointer, as in the commented statement, would be a use
    after free. *)
Theorem use_after_free_leaves_a_dead_object (s : state) :
  let s' := (semgrep_example.semgrep_use_after_free s).2 in
  let ptr := HeapPtr (length (heap s)) 0 in
  heap s' = heap s ++ [Block [Some 42] false]
  /\ live_ints (heap s') = live_ints (heap s)
  /\ faults (trace s') = faults (trace s)
  /\ faults (trace (deref_assign ptr 100 s').2) =
     faults (trace s) ++ [(Deref Write ptr, UseAfterFree)].
Proof.
  cbn zeta. rewrite use_after_free_run. cbn [snd].
  set (s' := logged _ _).
  assert (Hf : faults (trace s') = faults (trace s)).
  { unfold s'. rewrite trace_logged, faults_snoc, app_nil_r.
    change (trace (with_heap _ ?x)) with (trace x).
    rewrite trace_logged, faults_snoc. apply app_nil_r. }
  split; [reflexivity|]. split; [|split; [exact Hf|]].
  - simpl heap. rewrite live_ints_app. unfold live_ints at 2. simpl. lia.
  - unfold deref_assign, mbind, M_bind, get_state, poke.
    change (heap s') with (heap s ++ [Block [Some 42] false]).
    rewrite list_lookup_middle by done. simpl.
    change (faults (trace s' ++ [Did (Deref Write (HeapPtr (length (heap s)) 0))
                                   (Some UseAfterFree)]) = faults (trace s) ++
            [(Deref Write (HeapPtr (length (heap s)) 0), UseAfterFree)]).
    rewrite faults_snoc, Hf. done.
Qed.

(** X14.  One call of [semgrep_race_condition] adds one to [global_counter],
    except at [INT_MAX], where the increment overflows. *)
Theorem race_condition_counts_up_to_INT_MAX (s : state) (c : Z) :
  globals s !! semgrep_example.global_counter = Some c ->
  Int.INT_MIN <= c <= Int.INT_MAX ->
  let s' := (semgrep_example.semgrep_race_condition s).2 in
  (c < Int.INT_MAX ->
     globals s' !! semgrep_example.global_counter = Some (c + 1) /\
     faults (trace s') = faults (trace s))
  /\ (c = Int.INT_MAX ->
     globals s' !! semgrep_example.global_counter = Some Int.INT_MIN /\
     faults (trace s') = faults (trace s) ++ [(Incr Int.INT_MAX, SignedOverflow)])
  /\ heap s' = heap s /\ stack s' = stack s.
Proof.
  intros Hc Hrange. cbn zeta.
  unfold semgrep_example.semgrep_race_condition.
  rewrite run_bind, load_global_run, Hc. cbn [fst snd default from_option id].
  assert (Hlt : (semgrep_example.global_counter < length (globals s))%nat)
    by (by eapply lookup_lt_Some).
  split; [|split].
  - intros Hlt'. rewrite run_bind, incr_run
      by (apply fits_iff; unfold Int.INT_MIN, Int.INT_MAX in *; lia).
    cbn [fst snd]. rewrite store_global_run. cbn [snd]. split.
    + simpl. by apply list_lookup_insert_eq.
    + rewrite trace_logged, faults_snoc, app_nil_r, trace_with_globals.
      rewrite !trace_logged, !faults_snoc, !app_nil_r. done.
  - intros ->. rewrite run_bind. unfold incr.
    change (Int.fits (Int.INT_MAX + 1)) with false. cbn [fst snd].
    rewrite run_bind. cbn [fst snd]. rewrite store_global_run. cbn [snd]. split.
    + simpl. by apply list_lookup_insert_eq.
    + rewrite trace_logged, faults_snoc, app_nil_r, trace_with_globals.
      change (faults ((trace s ++ [Did (Glob Read semgrep_example.global_counter) None])
                      ++ [Did (Incr Int.INT_MAX) (Some SignedOverflow)]) =
              faults (trace s) ++ [(Incr Int.INT_MAX, SignedOverflow)]).
      rewrite !faults_snoc, app_nil_r. done.
  - rewrite run_bind. unfold incr. destruct (Int.fits (c + 1)); split; reflexivity.
Qed.

(** X14 from the counter the program starts with. *)
Lemma race_condition_counts_from_0 :
  let s := boot (fun _ => 0) semgrep_example.initial_globals in
  let s' := (semgrep_example.semgrep_race_condition s).2 in
  (0 < Int.INT_MAX ->
     globals s' !! semgrep_example.global_counter = Some (0 + 1) /\
     faults (trace s') = faults (trace s))
  /\ (0 = Int.INT_MAX ->
     globals s' !! semgrep_example.global_counter = Some Int.INT_MIN /\
     faults (trace s') = faults (trace s) ++ [(Incr Int.INT_MAX, SignedOverflow)])
  /\ heap s' = heap s /\ stack s' = stack s.
Proof.
  refine (race_condition_counts_up_to_INT_MAX
           (boot (fun _ => 0) semgrep_example.initial_globals) 0 _ _);
    [reflexivity | vm_compute; split; discriminate].
Defined.
